(** * Version handling of Read the Docs: parsing, ordering and the stable version

    A shallow embedding of [readthedocs/projects/version_handling.py] and
    of the parts of Python and of the [packaging] library it runs on,
    followed by the properties of the version ordering engine. *)

From Stdlib Require Import String Ascii DecimalString.
From Stdlib Require Import List Bool Arith NArith ZArith Lia.
From Stdlib Require Import Permutation Sorted.
Import ListNotations.

Set Implicit Arguments.
Local Open Scope N_scope.

(* ================================================================= *)
(** ** Python values *)

(** A Python [str] is a sequence of code points, a [bytes] a sequence of
    byte values.  The functions of the module accept either. *)
Definition str := list N.
Definition bytes := list N.

Inductive pystring : Type :=
| PyStr (s : str)
| PyBytes (b : bytes).

(** String literals of the source, written as Rocq strings. *)
Fixpoint lit (s : string) : str :=
  match s with
  | EmptyString => []
  | String c s' => N_of_ascii c :: lit s'
  end.

(** Exceptions are identified by their class.  [issubclass] is the
    class hierarchy of Python, [packaging] and [bumpver]. *)
Inductive exn : Type :=
| InvalidVersion
| PatternError
| UnicodeError
| UnicodeDecodeError
| ValueError
| RecursionError
| PyException.

Definition exn_eqb (a b : exn) : bool :=
  match a, b with
  | InvalidVersion, InvalidVersion | PatternError, PatternError
  | UnicodeError, UnicodeError | UnicodeDecodeError, UnicodeDecodeError
  | ValueError, ValueError | RecursionError, RecursionError
  | PyException, PyException => true
  | _, _ => false
  end.

Definition issubclass (e cls : exn) : bool :=
  exn_eqb e cls ||
  match e, cls with
  | _, PyException => true
  | (InvalidVersion | UnicodeError | UnicodeDecodeError), ValueError => true
  | UnicodeDecodeError, UnicodeError => true
  | _, _ => false
  end.

(** The outcome of a call: a value or a raised exception. *)
Inductive Res (A : Type) : Type :=
| Ok (a : A)
| Raise (e : exn).
Arguments Ok {A} a.
Arguments Raise {A} e.

Definition bind {A B} (r : Res A) (k : A -> Res B) : Res B :=
  match r with
  | Ok a => k a
  | Raise e => Raise e
  end.

Notation "x <- c ;; k" := (bind c (fun x => k))
  (at level 61, c at next level, right associativity).

(** [try: c except cls: h] for a single handler. *)
Definition try_except {A} (c : Res A) (cls : exn) (h : Res A) : Res A :=
  match c with
  | Ok a => Ok a
  | Raise e => if issubclass e cls then h else Raise e
  end.

(* ----------------------------------------------------------------- *)
(** *** Operations on [str] *)

Fixpoint str_eqb (a b : str) : bool :=
  match a, b with
  | [], [] => true
  | x :: a', y :: b' => (x =? y) && str_eqb a' b'
  | _, _ => false
  end.

Fixpoint startswith (s prefix : str) {struct prefix} : bool :=
  match prefix with
  | [] => true
  | p :: prefix' =>
      match s with
      | c :: s' => (c =? p) && startswith s' prefix'
      | [] => false
      end
  end.

(** [sub in s] *)
Fixpoint str_contains (sub s : str) : bool :=
  startswith s sub ||
  match s with
  | [] => false
  | _ :: s' => str_contains sub s'
  end.

(** [s.replace(old, new)] for a non-empty [old]: occurrences are found
    from the left and do not overlap.  [skip] counts the characters of
    an occurrence still to be dropped. *)
Fixpoint replace_from (old new : str) (skip : nat) (s : str) : str :=
  match s with
  | [] => []
  | c :: s' =>
      match skip with
      | S k => replace_from old new k s'
      | O =>
          if startswith s old
          then new ++ replace_from old new (Nat.pred (length old)) s'
          else c :: replace_from old new 0 s'
      end
  end.

Definition str_replace (s old new : str) : str := replace_from old new 0 s.

(** [x in l] and [l.index(x)] on a list of [str]; [index] is called
    on members only. *)
Definition list_contains (x : str) (l : list str) : bool :=
  existsb (str_eqb x) l.

Fixpoint list_index (x : str) (l : list str) : nat :=
  match l with
  | [] => 0
  | y :: l' => if str_eqb y x then 0%nat else S (list_index x l')
  end.

(** [str(n)] for a non-negative integer. *)
Definition str_of_N (n : N) : str :=
  lit (NilEmpty.string_of_uint (N.to_uint n)).

(* ----------------------------------------------------------------- *)
(** *** Codecs *)

(** [b.decode("utf-8")], strict: the well-formed byte sequences of the
    Unicode standard (no overlong forms, no surrogates, nothing above
    U+10FFFF); anything else raises [UnicodeDecodeError]. *)
Definition is_cont (b : N) : bool := (128 <=? b) && (b <=? 191).

Fixpoint decode_utf8 (b : bytes) : Res str :=
  match b with
  | [] => Ok []
  | b0 :: r0 =>
      if b0 <? 128 then
        rest <- decode_utf8 r0 ;; Ok (b0 :: rest)
      else if (194 <=? b0) && (b0 <=? 223) then
        match r0 with
        | b1 :: r1 =>
            if is_cont b1 then
              rest <- decode_utf8 r1 ;;
              Ok ((b0 - 192) * 64 + (b1 - 128) :: rest)
            else Raise UnicodeDecodeError
        | _ => Raise UnicodeDecodeError
        end
      else if (224 <=? b0) && (b0 <=? 239) then
        match r0 with
        | b1 :: b2 :: r2 =>
            let lo := if b0 =? 224 then 160 else 128 in
            let hi := if b0 =? 237 then 159 else 191 in
            if (lo <=? b1) && (b1 <=? hi) && is_cont b2 then
              rest <- decode_utf8 r2 ;;
              Ok ((b0 - 224) * 4096 + (b1 - 128) * 64 + (b2 - 128) :: rest)
            else Raise UnicodeDecodeError
        | _ => Raise UnicodeDecodeError
        end
      else if (240 <=? b0) && (b0 <=? 244) then
        match r0 with
        | b1 :: b2 :: b3 :: r3 =>
            let lo := if b0 =? 240 then 144 else 128 in
            let hi := if b0 =? 244 then 143 else 191 in
            if (lo <=? b1) && (b1 <=? hi) && is_cont b2 && is_cont b3 then
              rest <- decode_utf8 r3 ;;
              Ok ((b0 - 240) * 262144 + (b1 - 128) * 4096
                  + (b2 - 128) * 64 + (b3 - 128) :: rest)
            else Raise UnicodeDecodeError
        | _ => Raise UnicodeDecodeError
        end
      else Raise UnicodeDecodeError
  end.

(** [s.encode("ascii", "ignore")]: code points outside ASCII are dropped. *)
Definition is_ascii (c : N) : bool := c <? 128.

Definition encode_ascii_ignore (s : str) : bytes := filter is_ascii s.

(** [b.decode("ascii")], strict. *)
Fixpoint decode_ascii (b : bytes) : Res str :=
  match b with
  | [] => Ok []
  | c :: b' =>
      if is_ascii c then rest <- decode_ascii b' ;; Ok (c :: rest)
      else Raise UnicodeDecodeError
  end.

(* ----------------------------------------------------------------- *)
(** *** Comparison

    Python compares integers numerically and strings, tuples and lists
    lexicographically, a proper prefix being smaller.  [cmp] is the
    three-way comparison these follow; [py_lt] is the [<] that
    [sorted] and [list.sort] call. *)

Class Ord (A : Type) := cmp : A -> A -> comparison.

#[global] Instance Ord_N : Ord N := N.compare.

Fixpoint list_cmp {A} `{Ord A} (a b : list A) : comparison :=
  match a, b with
  | [], [] => Eq
  | [], _ :: _ => Lt
  | _ :: _, [] => Gt
  | x :: a', y :: b' =>
      match cmp x y with
      | Eq => list_cmp a' b'
      | c => c
      end
  end.

#[global] Instance Ord_list {A} `{Ord A} : Ord (list A) := list_cmp.

Definition pair_cmp {A B} `{Ord A} `{Ord B} (p q : A * B) : comparison :=
  match cmp (fst p) (fst q) with
  | Eq => cmp (snd p) (snd q)
  | c => c
  end.

#[global] Instance Ord_pair {A B} `{Ord A} `{Ord B} : Ord (A * B) := pair_cmp.

Definition py_lt {A} `{Ord A} (x y : A) : bool :=
  match cmp x y with
  | Lt => true
  | _ => false
  end.

(** The laws a comparison has to obey for sorting to be meaningful. *)
Class OrdLaws (A : Type) `{Ord A} : Prop := {
  cmp_eq : forall x y : A, cmp x y = Eq <-> x = y;
  cmp_opp : forall x y : A, cmp y x = CompOpp (cmp x y);
  cmp_lt_trans : forall x y z : A, cmp x y = Lt -> cmp y z = Lt -> cmp x z = Lt
}.
Arguments OrdLaws A {_}.

(* ----------------------------------------------------------------- *)
(** *** [sorted] and [list.sort]

    Python's sort is stable and calls only [<] on the keys.  On keys
    that [<] orders totally every stable sort returns the same list;
    the insertion sort below is that list.  With [reverse=True] Python
    reverses the list, sorts it, and reverses the result, which keeps
    equal keys in their original order. *)
Section Sorting.
Variables (A K : Type) (key : A -> K) (lt : K -> K -> bool).

Fixpoint insert (x : A) (l : list A) : list A :=
  match l with
  | [] => [x]
  | y :: l' => if lt (key y) (key x) then y :: insert x l' else x :: l
  end.

Fixpoint isort (l : list A) : list A :=
  match l with
  | [] => []
  | x :: l' => insert x (isort l')
  end.

Definition sorted (reverse : bool) (l : list A) : list A :=
  if reverse then rev (isort (rev l)) else isort l.

(** Ascending and descending lists, as [<] sees them. *)
Definition ascending : list A -> Prop :=
  StronglySorted (fun a b => lt (key b) (key a) = false).
Definition descending : list A -> Prop :=
  StronglySorted (fun a b => lt (key a) (key b) = false).
End Sorting.

(* ================================================================= *)
(** ** The [packaging.version] library

    [packaging] is a dependency of the repository.  [Version(s)]
    matches [s] against the version pattern of PEP 440,
    case-insensitively and with surrounding white space allowed,
<<
    v? (epoch !)? release pre? post? dev? (+ local)?
>>
    and raises [InvalidVersion] when it does not match.  The parts are
    told apart by the letters and signs they begin with, after an
    optional separator, so the scan below, which takes for each part
    in turn the longest text that fits, finds the match of the regular
    expression.  Versions are compared through the key that [_cmpkey]
    builds.  Integers are unbounded.  Letters are matched as ASCII
    letters: the failsafe parser passes on ASCII text only. *)
Module packaging.

Record Version : Type := mkVersion {
  epoch : N;
  release : list N;
  pre : option (str * N);
  post : option (str * N);
  dev : option (str * N);
  local : option (list (N + str))
}.

(** Character classes of the pattern. *)
Definition is_digit (c : N) : bool := (48 <=? c) && (c <=? 57).
Definition digit_val (c : N) : N := c - 48.
Definition lower (c : N) : N := if (65 <=? c) && (c <=? 90) then c + 32 else c.
Definition is_alnum (c : N) : bool :=
  is_digit c || ((97 <=? lower c) && (lower c <=? 122)).
(** [[-_.]] *)
Definition is_sep (c : N) : bool := (c =? 45) || (c =? 95) || (c =? 46).
(** [\s] on a [str] pattern *)
Definition is_space (c : N) : bool :=
  ((9 <=? c) && (c <=? 13)) || ((28 <=? c) && (c <=? 32))
  || (c =? 133) || (c =? 160) || (c =? 5760)
  || ((8192 <=? c) && (c <=? 8202))
  || (c =? 8232) || (c =? 8233) || (c =? 8239) || (c =? 8287)
  || (c =? 12288).

Fixpoint skip_spaces (s : str) : str :=
  match s with
  | c :: s' => if is_space c then skip_spaces s' else s
  | [] => []
  end.

Definition skip_sep (s : str) : str :=
  match s with
  | c :: s' => if is_sep c then s' else s
  | [] => []
  end.

(** [[0-9]*] and the text after it. *)
Fixpoint span_digits (s : str) : str * str :=
  match s with
  | c :: s' =>
      if is_digit c
      then let (d, r) := span_digits s' in (c :: d, r)
      else ([], s)
  | [] => ([], [])
  end.

(** [int(d)] on a string of digits. *)
Definition int_of_digits (d : str) : N :=
  fold_left (fun acc c => 10 * acc + digit_val c) d 0.

(** [([0-9]+)?]: the group is [None] when it does not take part. *)
Definition opt_number (s : str) : option str * str :=
  let (d, r) := span_digits s in
  match d with
  | [] => (None, s)
  | _ => (Some d, r)
  end.

(** A lower-case word matched case-insensitively at the head of [s]. *)
Fixpoint match_word (w s : str) : option str :=
  match w, s with
  | [], _ => Some s
  | x :: w', c :: s' => if lower c =? x then match_word w' s' else None
  | _ :: _, [] => None
  end.

(** An alternation [w1|w2|...]: the first word that matches. *)
Fixpoint match_first (ws : list str) (s : str) : option (str * str) :=
  match ws with
  | [] => None
  | w :: ws' =>
      match match_word w s with
      | Some r => Some (w, r)
      | None => match_first ws' s
      end
  end.

(** [[-_.]? (w1|w2|...) [-_.]? ([0-9]+)?] *)
Definition match_segment (letters : list str) (s : str)
  : option (str * option str * str) :=
  match match_first letters (skip_sep s) with
  | Some (l, r) => let (n, r') := opt_number (skip_sep r) in Some (l, n, r')
  | None => None
  end.

Definition pre_letters : list str :=
  map lit ["alpha"; "a"; "beta"; "b"; "preview"; "pre"; "c"; "rc"]%string.
Definition post_letters : list str := map lit ["post"; "rev"; "r"]%string.
Definition dev_letters : list str := map lit ["dev"]%string.

(** [(epoch !)?] *)
Definition match_epoch (s : str) : option str * str :=
  let (d, r) := span_digits s in
  match d, r with
  | _ :: _, 33 :: r' => (Some d, r')
  | _, _ => (None, s)
  end.

(** [[0-9]+(\.[0-9]+)*], each component read as an integer.  [cur] is
    the value of the digits of the current component read so far. *)
Fixpoint release_from (cur : N) (s : str) : list N * str :=
  match s with
  | c :: s' =>
      if is_digit c then release_from (10 * cur + digit_val c) s'
      else if c =? 46 then
        match s' with
        | d :: s'' =>
            if is_digit d
            then let (rest, r) := release_from (digit_val d) s'' in
                 (cur :: rest, r)
            else ([cur], s)
        | [] => ([cur], s)
        end
      else ([cur], s)
  | [] => ([cur], [])
  end.

Definition match_release (s : str) : option (list N * str) :=
  match s with
  | c :: s' => if is_digit c then Some (release_from (digit_val c) s') else None
  | [] => None
  end.

(** The post release: [-N], or a lettered segment. *)
Definition match_post (s : str) : option str * option str * str :=
  let implicit :=
    match s with
    | 45 :: s' =>
        match opt_number s' with
        | (Some n, r) => Some (n, r)
        | (None, _) => None
        end
    | _ => None
    end in
  match implicit with
  | Some (n, r) => (None, Some n, r)
  | None =>
      match match_segment post_letters s with
      | Some (l, n, r) => (Some l, n, r)
      | None => (None, None, s)
      end
  end.

(** [[a-z0-9]+([-_.][a-z0-9]+)*], split at the separators.  [cur] is
    the current part, at least one character of it already read. *)
Fixpoint local_from (cur : str) (s : str) : list str * str :=
  match s with
  | c :: s' =>
      if is_alnum c then local_from (cur ++ [c]) s'
      else if is_sep c then
        match s' with
        | d :: s'' =>
            if is_alnum d
            then let (rest, r) := local_from [d] s'' in (cur :: rest, r)
            else ([cur], s)
        | [] => ([cur], s)
        end
      else ([cur], s)
  | [] => ([cur], [])
  end.

(** [(\+ local)?] *)
Definition match_local (s : str) : option (list str) * str :=
  match s with
  | 43 :: c :: s' =>
      if is_alnum c
      then let (parts, r) := local_from [c] s' in (Some parts, r)
      else (None, s)
  | _ => (None, s)
  end.

Definition normalize_letter (letter : str) : str :=
  if str_eqb letter (lit "alpha") then lit "a"
  else if str_eqb letter (lit "beta") then lit "b"
  else if list_contains letter (map lit ["c"; "pre"; "preview"]%string)
  then lit "rc"
  else if list_contains letter (map lit ["rev"; "r"]%string) then lit "post"
  else letter.

Definition _parse_letter_version (letter number : option str)
  : option (str * N) :=
  match letter, number with
  | Some l, Some n => Some (normalize_letter l, int_of_digits n)
  | Some l, None => Some (normalize_letter l, 0)
  | None, Some n => Some (lit "post", int_of_digits n)
  | None, None => None
  end.

Definition _parse_local_version (local : option (list str))
  : option (list (N + str)) :=
  match local with
  | Some parts =>
      Some (map (fun part =>
                   if forallb is_digit part
                   then inl (int_of_digits part)
                   else inr (map lower part)) parts)
  | None => None
  end.

(** [Version(version)] *)
Definition parse (version : str) : Res Version :=
  let s := skip_spaces version in
  let s := match match_word (lit "v") s with Some r => r | None => s end in
  let (epoch_g, s) := match_epoch s in
  match match_release s with
  | None => Raise InvalidVersion
  | Some (release_g, s) =>
      let '(pre_l, pre_n, s) :=
        match match_segment pre_letters s with
        | Some (l, n, r) => (Some l, n, r)
        | None => (None, None, s)
        end in
      let '(post_l, post_n, s) := match_post s in
      let '(dev_l, dev_n, s) :=
        match match_segment dev_letters s with
        | Some (l, n, r) => (Some l, n, r)
        | None => (None, None, s)
        end in
      let (local_g, s) := match_local s in
      match skip_spaces s with
      | [] =>
          Ok {| epoch := match epoch_g with
                         | Some d => int_of_digits d
                         | None => 0
                         end;
                release := release_g;
                pre := _parse_letter_version pre_l pre_n;
                post := _parse_letter_version post_l post_n;
                dev := _parse_letter_version dev_l dev_n;
                local := _parse_local_version local_g |}
      | _ :: _ => Raise InvalidVersion
      end
  end.

(** [Infinity] and [NegativeInfinity] of [packaging._structures],
    around the values they are compared with. *)
Inductive bounded (A : Type) : Type :=
| NegativeInfinity
| Finite (a : A)
| Infinity.
Arguments NegativeInfinity {A}.
Arguments Finite {A} a.
Arguments Infinity {A}.

Definition bounded_cmp {A} `{Ord A} (x y : bounded A) : comparison :=
  match x, y with
  | NegativeInfinity, NegativeInfinity => Eq
  | NegativeInfinity, _ => Lt
  | _, NegativeInfinity => Gt
  | Infinity, Infinity => Eq
  | Infinity, _ => Gt
  | _, Infinity => Lt
  | Finite a, Finite b => cmp a b
  end.

#[global] Instance Ord_bounded {A} `{Ord A} : Ord (bounded A) := bounded_cmp.

Definition CmpKey : Type :=
  N * list N * bounded (str * N) * bounded (str * N) * bounded (str * N)
  * bounded (list (bounded N * str)).

(** The release with its trailing zeros dropped. *)
Fixpoint drop_zeros (l : list N) : list N :=
  match l with
  | 0 :: l' => drop_zeros l'
  | _ => l
  end.

Definition trimmed_release (v : Version) : list N :=
  rev (drop_zeros (rev (release v))).

Definition _cmpkey (v : Version) : CmpKey :=
  let _release := trimmed_release v in
  let _pre :=
    match pre v, post v, dev v with
    | None, None, Some _ => NegativeInfinity
    | None, _, _ => Infinity
    | Some p, _, _ => Finite p
    end in
  let _post :=
    match post v with None => NegativeInfinity | Some p => Finite p end in
  let _dev :=
    match dev v with None => Infinity | Some d => Finite d end in
  let _local :=
    match local v with
    | None => NegativeInfinity
    | Some l =>
        Finite (map (fun i => match i with
                              | inl n => (Finite n, [])
                              | inr s => (NegativeInfinity, s)
                              end) l)
    end in
  (epoch v, _release, _pre, _post, _dev, _local).

(** [v < w] on versions compares the keys. *)
Definition lt (v w : Version) : bool := py_lt (_cmpkey v) (_cmpkey w).

Definition is_prerelease (v : Version) : bool :=
  match dev v, pre v with
  | None, None => false
  | _, _ => true
  end.

End packaging.

(* ================================================================= *)
(** ** Read the Docs constants and records *)

(** Modelled from the spec: the synthetic version names of
    [readthedocs.builds.constants], which is not among the sources.
    The spec names them [latest] and [stable]; the slug and the verbose
    name of each coincide. *)
Definition LATEST : str := lit "latest".
Definition LATEST_VERBOSE_NAME : str := lit "latest".
Definition STABLE : str := lit "stable".
Definition STABLE_VERBOSE_NAME : str := lit "stable".

(** Modelled from the spec: the kind of a version record, "one of
    BRANCH, TAG" ([readthedocs.builds.constants]). *)
Inductive VersionType : Type := BRANCH | TAG.

Definition VersionType_eqb (a b : VersionType) : bool :=
  match a, b with
  | BRANCH, BRANCH | TAG, TAG => true
  | _, _ => false
  end.

(** The fields of [readthedocs.builds.models.Version] the module reads. *)
Module models.
Record Version : Type := mkVersion {
  slug : str;
  verbose_name : str;
  type : VersionType
}.
End models.

(** A VCS backend class, of which the module reads [fallback_branch]
    ([None] on the base class). *)
Record Backend : Type := { fallback_branch : option str }.

(** The depth of calls Python allows (CPython's default limit); one
    call more raises [RecursionError]. *)
Definition recursion_limit : nat := 1000.

(* ================================================================= *)
(** ** [readthedocs/projects/version_handling.py] *)

Section VersionHandling.

(** [unicodedata.normalize("NFKD", s)]: the decomposition tables of
    Unicode are data of the interpreter. *)
Variable normalize_NFKD : str -> str.

(** [backend_cls.get(repo_type)] of [readthedocs.vcs_support.backends]. *)
Variable backend_cls : str -> option Backend.

(** [parse_version_failsafe], with the depth of calls left. *)
Fixpoint parse_version_failsafe_rec (depth : nat) (version_string : pystring)
  : Res (option packaging.Version) :=
  match depth with
  | O => Raise RecursionError
  | S depth' =>
      uni_version <-
        match version_string with
        | PyStr s => Ok s
        | PyBytes b => decode_utf8 b
        end ;;
      let normalized_version := normalize_NFKD uni_version in
      let ascii_version := encode_ascii_ignore normalized_version in
      match decode_ascii ascii_version with
      | Raise e =>
          (* [final_form] is still empty *)
          if issubclass e InvalidVersion then Ok None
          else if issubclass e UnicodeError then Ok None
          else Raise e
      | Ok final_form =>
          match packaging.parse final_form with
          | Ok v => Ok (Some v)
          | Raise e =>
              if issubclass e InvalidVersion then
                if negb (str_eqb final_form [])
                   && str_contains (lit ".x") final_form
                then
                  let final_form :=
                    str_replace final_form (lit ".x") (lit ".999999") in
                  parse_version_failsafe_rec depth' (PyStr final_form)
                else Ok None
              else if issubclass e UnicodeError then Ok None
              else Raise e
          end
      end
  end.

Definition parse_version_failsafe (version_string : pystring)
  : Res (option packaging.Version) :=
  parse_version_failsafe_rec recursion_limit version_string.

(** The list [highest_versions] that [comparable_version] builds. *)
Definition highest_versions (repo_type : option str) : list str :=
  match repo_type with
  | Some ((_ :: _) as rt) =>
      match backend_cls rt with
      | Some backend =>
          match fallback_branch backend with
          | Some ((_ :: _) as branch) => [branch]
          | _ => []
          end
      | None => []
      end
  | _ => []
  end ++ [LATEST_VERBOSE_NAME; STABLE_VERBOSE_NAME].

Definition comparable_version (version_string : pystring)
                              (repo_type : option str)
  : Res packaging.Version :=
  let highest_versions := highest_versions repo_type in
  comparable <- parse_version_failsafe version_string ;;
  match comparable with
  | Some v => Ok v
  | None =>
      match version_string with
      | PyStr s =>
          if list_contains s highest_versions then
            let position := list_index s highest_versions in
            let version_number := str_of_N (999999 - N.of_nat position) in
            packaging.parse version_number
          else packaging.parse (lit "0.01")
      | PyBytes _ =>
          (* a [bytes] equals no [str] *)
          packaging.parse (lit "0.01")
      end
  end.

(** The loop of [sort_versions]. *)
Fixpoint comparable_pairs (version_list : list models.Version)
  : Res (list (models.Version * packaging.Version)) :=
  match version_list with
  | [] => Ok []
  | version_obj :: rest =>
      let version_slug := models.verbose_name version_obj in
      comparable_version <- parse_version_failsafe (PyStr version_slug) ;;
      versions <- comparable_pairs rest ;;
      match comparable_version with
      | Some c => Ok ((version_obj, c) :: versions)
      | None => Ok versions
      end
  end.

Definition sort_versions (version_list : list models.Version)
  : Res (list (models.Version * packaging.Version)) :=
  versions <- comparable_pairs version_list ;;
  Ok (sorted snd packaging.lt true versions).

(** The loop of [determine_stable_version]. *)
Fixpoint first_tag (versions : list (models.Version * packaging.Version))
  : option models.Version :=
  match versions with
  | [] => None
  | (version_obj, _) :: rest =>
      if VersionType_eqb (models.type version_obj) TAG
      then Some version_obj
      else first_tag rest
  end.

Definition determine_stable_version (version_list : list models.Version)
  : Res (option models.Version) :=
  versions <- sort_versions version_list ;;
  let versions :=
    filter (fun p => negb (packaging.is_prerelease (snd p))) versions in
  match versions with
  | (version_obj, _) :: _ =>
      match first_tag versions with
      | Some tag => Ok (Some tag)
      | None => Ok (Some version_obj)
      end
  | [] => Ok None
  end.

End VersionHandling.

(** The generic engine.  [K] is the type of the values [parse_version]
    returns and [K_lt] their [<]; [exception] is the class the [except]
    clause names. *)
Section Generic.
Variables (K : Type) (K_lt : K -> K -> bool).
Variable exception : exn.
Variable parse_version : str -> option str -> Res K.
Variable latest_stable_at_beginning : bool.
Variable raw_pattern : option str.

Definition alphabetically_sorted (version_list : list models.Version)
  : list models.Version :=
  sorted models.slug py_lt true version_list.

Definition is_pinned (version : models.Version) : bool :=
  latest_stable_at_beginning
  && list_contains (models.slug version) [STABLE; LATEST].

(** What the loop does with a slug: pin it, keep it as valid, or put
    it with the invalid ones. *)
Definition pinned_slug (slug : str) : bool :=
  latest_stable_at_beginning && list_contains slug [STABLE; LATEST].

Definition valid_slug (slug : str) : bool :=
  negb (pinned_slug slug)
  && match parse_version slug raw_pattern with
     | Ok _ => true
     | Raise _ => false
     end.

Definition invalid_slug (slug : str) : bool :=
  negb (pinned_slug slug)
  && match parse_version slug raw_pattern with
     | Ok _ => false
     | Raise e => issubclass e exception
     end.

Definition is_valid (version : models.Version) : bool :=
  valid_slug (models.slug version).

Definition is_invalid (version : models.Version) : bool :=
  invalid_slug (models.slug version).

(** The parse failures of the records of [l] are all of the class
    the strategy declares. *)
Definition failures_declared (l : list models.Version) : Prop :=
  forall version e,
    In version l ->
    is_pinned version = false ->
    parse_version (models.slug version) raw_pattern = Raise e ->
    issubclass e exception = true.

(** The loop: the three lists, each in the order of the traversal. *)
Fixpoint classify (l : list models.Version)
  : Res (list (models.Version * str) * list (models.Version * K)
         * list models.Version) :=
  match l with
  | [] => Ok ([], [], [])
  | version :: rest =>
      if is_pinned version then
        r <- classify rest ;;
        let '(initial_versions, valid_versions, invalid_versions) := r in
        Ok ((version, models.slug version) :: initial_versions,
            valid_versions, invalid_versions)
      else
        match parse_version (models.slug version) raw_pattern with
        | Ok k =>
            r <- classify rest ;;
            let '(initial_versions, valid_versions, invalid_versions) := r in
            Ok (initial_versions, (version, k) :: valid_versions,
                invalid_versions)
        | Raise e =>
            if issubclass e exception then
              r <- classify rest ;;
              let '(initial_versions, valid_versions, invalid_versions) :=
                r in
              Ok (initial_versions, valid_versions,
                  version :: invalid_versions)
            else Raise e
        end
  end.

(** Every item of the three lists holds a record of [version_list],
    so the guard [item[0] is not None] of the final comprehension
    keeps each of them. *)
Definition sort_versions_generic (version_list : list models.Version)
  : Res (list models.Version) :=
  let alphabetically_sorted_version_list :=
    alphabetically_sorted version_list in
  r <- classify alphabetically_sorted_version_list ;;
  let '(initial_versions, valid_versions, invalid_versions) := r in
  Ok (map fst (sorted snd py_lt false initial_versions)
      ++ map fst (sorted snd K_lt true valid_versions)
      ++ invalid_versions).
End Generic.

Definition sort_versions_python_packaging
    (version_list : list models.Version) (latest_stable_at_beginning : bool)
  : Res (list models.Version) :=
  let parse_version := fun (slug : str) (_ : option str) =>
                         packaging.parse slug in
  sort_versions_generic packaging.lt InvalidVersion parse_version
    latest_stable_at_beginning None version_list.

(** [bumpver]'s [parse_version_info] and the [<] of the tuples it
    returns belong to that library. *)
Section Bumpver.
Variables (VersionInfo : Type) (VersionInfo_lt : VersionInfo -> VersionInfo -> bool).
Variable parse_version_info : str -> option str -> Res VersionInfo.

Definition sort_versions_custom_pattern
    (version_list : list models.Version) (raw_pattern : str)
    (latest_stable_at_beginning : bool) : Res (list models.Version) :=
  let parse_version := fun (slug : str) (raw_pattern : option str) =>
                         parse_version_info slug raw_pattern in
  sort_versions_generic VersionInfo_lt PatternError parse_version
    latest_stable_at_beginning (Some raw_pattern) version_list.

Definition sort_versions_calver
    (version_list : list models.Version) (latest_stable_at_beginning : bool)
  : Res (list models.Version) :=
  let raw_pattern := lit "YYYY.0M.0D" in
  sort_versions_custom_pattern version_list raw_pattern
    latest_stable_at_beginning.
End Bumpver.

(** NFKD leaves ASCII text as it is: no ASCII character decomposes. *)
Definition NFKD_keeps_ascii (normalize_NFKD : str -> str) : Prop :=
  forall s, forallb is_ascii s = true -> normalize_NFKD s = s.

(** What [parse_version_failsafe] comes to on a [str] whose ASCII
    form is [final_form]: one parse, and one more after the wildcard
    has been replaced. *)
Definition failsafe_value (final_form : str) : option packaging.Version :=
  match packaging.parse final_form with
  | Ok v => Some v
  | Raise _ =>
      if negb (str_eqb final_form []) && str_contains (lit ".x") final_form
      then
        match packaging.parse
                (str_replace final_form (lit ".x") (lit ".999999")) with
        | Ok v => Some v
        | Raise _ => None
        end
      else None
  end.

(** Whether [sort_versions] keeps a record, and the pairs it keeps, in
    the order of the input. *)
Definition parses (normalize_NFKD : str -> str) (v : models.Version) : bool :=
  match parse_version_failsafe normalize_NFKD (PyStr (models.verbose_name v)) with
  | Ok (Some _) => true
  | _ => false
  end.

Definition parsed_pairs (normalize_NFKD : str -> str)
    (l : list models.Version) : list (models.Version * packaging.Version) :=
  flat_map (fun v =>
              match parse_version_failsafe normalize_NFKD
                      (PyStr (models.verbose_name v)) with
              | Ok (Some c) => [(v, c)]
              | _ => []
              end) l.

Definition has_slug (slug : str) (version : models.Version) : bool :=
  str_eqb (models.slug version) slug.

(** The order of the slugs. *)
Definition slug_descending : models.Version -> models.Version -> Prop :=
  fun a b => py_lt (models.slug a) (models.slug b) = false.
Definition slug_ascending : models.Version -> models.Version -> Prop :=
  fun a b => py_lt (models.slug b) (models.slug a) = false.

Definition is_tag (p : models.Version * packaging.Version) : bool :=
  VersionType_eqb (models.type (fst p)) TAG.

Definition not_prerelease (p : models.Version * packaging.Version) : bool :=
  negb (packaging.is_prerelease (snd p)).

(** The sentinel of [comparable_version], [Version("0.01")]. *)
Definition sentinel : packaging.Version :=
  packaging.mkVersion 0 [0; 1] None None None None.

(* ================================================================= *)
(** ** Data the statements are evaluated on *)

(** On ASCII text NFKD changes nothing; this is the normalisation
    restricted to such text. *)
Definition nfkd_on_ascii : str -> str := fun s => s.

(** Modelled from the spec: the table of backends, "e.g. git -> master"
    ([readthedocs.vcs_support.backends] is not among the sources). *)
Definition git_backend_cls (repo_type : str) : option Backend :=
  if str_eqb repo_type (lit "git")
  then Some {| fallback_branch := Some (lit "master") |}
  else None.

Definition record (name : string) (kind : VersionType) : models.Version :=
  {| models.slug := lit name; models.verbose_name := lit name;
     models.type := kind |}.

Definition four_names : list models.Version :=
  [record "2.0.0" TAG; record "1.5.0" TAG; record "latest" BRANCH;
   record "not-a-version" BRANCH].

Definition tags_and_branches : list models.Version :=
  [record "2.0.0" TAG; record "2.1.0-rc1" BRANCH; record "2.1.0" BRANCH;
   record "1.9.0" TAG].

(* ================================================================= *)
(** ** [readthedocs/projects/templatetags/projects_tags.py] *)

(** The field of [readthedocs.projects.models.Project] the filter reads. *)
Module projects.
Record Project : Type := { repo_type : str }.
End projects.

(** The keys of [sorted(..., key=f)]: [f] is called on every item, in
    order, before anything is compared. *)
Fixpoint sort_keys {A B} (f : A -> Res B) (l : list A) : Res (list (A * B)) :=
  match l with
  | [] => Ok []
  | a :: l' =>
      k <- f a ;;
      rest <- sort_keys f l' ;;
      Ok ((a, k) :: rest)
  end.

Section ProjectsTags.
Variable normalize_NFKD : str -> str.
Variable backend_cls : str -> option Backend.

(** [version.project]: the project a version record belongs to. *)
Variable project : models.Version -> projects.Project.

Definition sort_version_aware (versions : list models.Version)
  : Res (list models.Version) :=
  let repo_type :=
    match versions with
    | first :: _ => Some (projects.repo_type (project first))
    | [] => None
    end in
  decorated <-
    sort_keys (fun version =>
                 comparable_version normalize_NFKD backend_cls
                   (PyStr (models.verbose_name version)) repo_type)
              versions ;;
  Ok (map fst (sorted snd packaging.lt true decorated)).

End ProjectsTags.

(* ================================================================= *)
(** ** Notions the further properties are stated with *)

(** The value [comparable_version] gives the synthetic name at index
    [position] of [highest_versions]. *)
Definition ceiling (position : nat) : packaging.Version :=
  packaging.mkVersion 0 [999999 - N.of_nat position] None None None None.

(** The key of a record in [sort_version_aware]. *)
Definition key_of (normalize_NFKD : str -> str)
    (backend_cls : str -> option Backend) (repo_type : option str)
    (version : models.Version) : packaging.Version :=
  match comparable_version normalize_NFKD backend_cls
          (PyStr (models.verbose_name version)) repo_type with
  | Ok c => c
  | Raise _ => sentinel
  end.

(** The repository type [sort_version_aware] reads off its first item. *)
Definition repo_type_of (project : models.Version -> projects.Project)
    (versions : list models.Version) : option str :=
  match versions with
  | first :: _ => Some (projects.repo_type (project first))
  | [] => None
  end.

(** Versions that compare equal to the key [k]. *)
Definition same_key (k : packaging.CmpKey) (c : packaging.Version) : bool :=
  match cmp (packaging._cmpkey c) k with
  | Eq => true
  | _ => false
  end.

(** Values of which neither is less than the other. *)
Definition equal_rank {K} (K_lt : K -> K -> bool) (k k' : K) : bool :=
  negb (K_lt k k') && negb (K_lt k' k).

(** A name that does not parse and is no synthetic name. *)
Definition is_garbage (normalize_NFKD : str -> str)
    (backend_cls : str -> option Backend) (repo_type : option str)
    (version : models.Version) : bool :=
  match parse_version_failsafe normalize_NFKD
          (PyStr (models.verbose_name version)) with
  | Ok None =>
      negb (list_contains (models.verbose_name version)
              (highest_versions backend_cls repo_type))
  | _ => false
  end.

(** The records [determine_stable_version] chooses among: the name
    parses, to a version that is no pre-release. *)
Definition qualifies (normalize_NFKD : str -> str)
    (version : models.Version) (c : packaging.Version) : Prop :=
  parse_version_failsafe normalize_NFKD (PyStr (models.verbose_name version))
  = Ok (Some c)
  /\ packaging.is_prerelease c = false.

(* ================================================================= *)
(** ** Laws of the comparisons *)

Lemma cmp_refl {A} `{OrdLaws A} (x : A) : cmp x x = Eq.
Proof. now apply cmp_eq. Qed.

Lemma cmp_gt_lt {A} `{OrdLaws A} (x y : A) : cmp x y = Gt <-> cmp y x = Lt.
Proof.
  rewrite (cmp_opp x y). destruct (cmp x y); simpl; split; congruence.
Qed.

#[global] Instance OrdLaws_N : OrdLaws N.
Proof.
  split; unfold cmp, Ord_N.
  - apply N.compare_eq_iff.
  - intros x y. apply N.compare_antisym.
  - intros x y z. rewrite !N.compare_lt_iff. apply N.lt_trans.
Qed.

#[global] Instance OrdLaws_list {A} `{OrdLaws A} : OrdLaws (list A).
Proof.
  split; unfold cmp, Ord_list.
  - induction x as [|a x IH]; intros [|b y]; simpl; try (split; congruence).
    destruct (cmp a b) eqn:E.
    + apply cmp_eq in E. subst b. rewrite IH. split; congruence.
    + split; [discriminate|]. intros [= -> _]. now rewrite cmp_refl in E.
    + split; [discriminate|]. intros [= -> _]. now rewrite cmp_refl in E.
  - induction x as [|a x IH]; intros [|b y]; simpl; trivial.
    rewrite (cmp_opp a b). destruct (cmp a b); simpl; auto.
  - induction x as [|a x IH]; intros [|b y] [|c z]; simpl; try congruence.
    destruct (cmp a b) eqn:E1; try discriminate.
    + apply cmp_eq in E1. subst b.
      destruct (cmp a c); try congruence. eauto.
    + destruct (cmp b c) eqn:E2; try discriminate.
      * apply cmp_eq in E2. subst c. now rewrite E1.
      * now rewrite (cmp_lt_trans _ _ _ E1 E2).
Qed.

#[global] Instance OrdLaws_pair {A B} `{OrdLaws A} `{OrdLaws B} : OrdLaws (A * B).
Proof.
  split; unfold cmp, Ord_pair, pair_cmp.
  - intros [a b] [c d]; simpl. destruct (cmp a c) eqn:E.
    + apply cmp_eq in E. subst c. rewrite cmp_eq. split; congruence.
    + split; [discriminate|]. intros [= -> _]. now rewrite cmp_refl in E.
    + split; [discriminate|]. intros [= -> _]. now rewrite cmp_refl in E.
  - intros [a b] [c d]; simpl. rewrite (cmp_opp a c).
    destruct (cmp a c); simpl; auto using cmp_opp.
  - intros [a b] [c d] [e f]; simpl.
    destruct (cmp a c) eqn:E1; try discriminate.
    + apply cmp_eq in E1. subst c.
      destruct (cmp a e); try congruence. apply cmp_lt_trans.
    + destruct (cmp c e) eqn:E2; try discriminate.
      * apply cmp_eq in E2. subst e. now rewrite E1.
      * now rewrite (cmp_lt_trans _ _ _ E1 E2).
Qed.

#[global] Instance OrdLaws_bounded {A} `{OrdLaws A}
  : OrdLaws (packaging.bounded A).
Proof.
  split; unfold cmp, packaging.Ord_bounded, packaging.bounded_cmp.
  - intros [|a|] [|b|]; try (split; congruence).
    rewrite cmp_eq. split; congruence.
  - intros [|a|] [|b|]; simpl; auto using cmp_opp.
  - intros [|a|] [|b|] [|c|]; try congruence. apply cmp_lt_trans.
Qed.

#[global] Instance OrdLaws_CmpKey : OrdLaws packaging.CmpKey.
Proof. unfold packaging.CmpKey. typeclasses eauto. Qed.

(** What [<] inherits from the laws. *)
Section LtFacts.
Context {A : Type} `{OrdLaws A}.

Lemma py_lt_irrefl (x : A) : py_lt x x = false.
Proof. unfold py_lt. now rewrite cmp_refl. Qed.

Lemma py_lt_asym (x y : A) : py_lt x y = true -> py_lt y x = false.
Proof.
  unfold py_lt. rewrite (cmp_opp x y). now destruct (cmp x y).
Qed.

Lemma py_lt_trans (x y z : A) :
  py_lt x y = true -> py_lt y z = true -> py_lt x z = true.
Proof.
  unfold py_lt. destruct (cmp x y) eqn:E1; try discriminate.
  destruct (cmp y z) eqn:E2; try discriminate.
  now rewrite (cmp_lt_trans _ _ _ E1 E2).
Qed.

(** "Not less than" is transitive. *)
Lemma py_ge_trans (x y z : A) :
  py_lt y x = false -> py_lt z y = false -> py_lt z x = false.
Proof.
  unfold py_lt. intros H1 H2.
  destruct (cmp z x) eqn:E; trivial.
  destruct (cmp y x) eqn:E1; try discriminate.
  - apply cmp_eq in E1. subst y. now rewrite E in H2.
  - apply cmp_gt_lt in E1.
    now rewrite (cmp_lt_trans _ _ _ E E1) in H2.
Qed.

Lemma py_lt_total (x y : A) : py_lt x y = false -> py_lt y x = false -> x = y.
Proof.
  unfold py_lt. rewrite (cmp_opp x y). destruct (cmp x y) eqn:E; try easy.
  intros _ _. now apply cmp_eq.
Qed.
End LtFacts.

Lemma version_lt_irrefl (v : packaging.Version) : packaging.lt v v = false.
Proof. unfold packaging.lt. apply py_lt_irrefl. Qed.

Lemma version_lt_asym (v w : packaging.Version) :
  packaging.lt v w = true -> packaging.lt w v = false.
Proof. unfold packaging.lt. apply py_lt_asym. Qed.

Lemma version_ge_trans (u v w : packaging.Version) :
  packaging.lt v u = false -> packaging.lt w v = false ->
  packaging.lt w u = false.
Proof. unfold packaging.lt. apply py_ge_trans. Qed.

(* ================================================================= *)
(** ** Facts about [sorted] *)

Lemma StronglySorted_app {A} (R : A -> A -> Prop) (l m : list A) :
  StronglySorted R l -> StronglySorted R m ->
  (forall a b, In a l -> In b m -> R a b) ->
  StronglySorted R (l ++ m).
Proof.
  induction 1 as [|a l Hl IH Ha]; simpl; intros Hm Hlm; trivial.
  constructor.
  - apply IH; auto.
  - apply Forall_app. split; trivial.
    apply Forall_forall. auto.
Qed.

Lemma StronglySorted_rev {A} (R : A -> A -> Prop) (l : list A) :
  StronglySorted R l -> StronglySorted (fun a b => R b a) (rev l).
Proof.
  induction 1 as [|a l Hl IH Ha]; simpl; [constructor|].
  apply StronglySorted_app; trivial.
  - repeat constructor.
  - intros x y Hx [<-|[]]. rewrite Forall_forall in Ha.
    apply Ha. now apply in_rev.
Qed.

Lemma StronglySorted_filter_keeps {A} (R : A -> A -> Prop) (P : A -> bool) l :
  StronglySorted R l -> StronglySorted R (filter P l).
Proof.
  induction 1 as [|a l Hl IH Ha]; simpl; [constructor|].
  destruct (P a); trivial. constructor; trivial.
  rewrite Forall_forall in *. intros x [Hx _]%filter_In. auto.
Qed.

Lemma filter_rev {A} (P : A -> bool) (l : list A) :
  filter P (rev l) = rev (filter P l).
Proof.
  induction l as [|a l IH]; simpl; trivial.
  rewrite filter_app, IH. simpl. destruct (P a); simpl; trivial.
  now rewrite app_nil_r.
Qed.

Section SortingFacts.
Variables (A K : Type) (key : A -> K) (lt : K -> K -> bool).

Local Abbreviation insert := (insert key lt).
Local Abbreviation isort := (isort key lt).
Local Abbreviation ascending := (ascending key lt).
Local Abbreviation descending := (descending key lt).

Lemma insert_perm x l : Permutation (insert x l) (x :: l).
Proof.
  induction l as [|y l IH]; simpl; trivial.
  destruct (lt (key y) (key x)); trivial.
  rewrite IH. apply perm_swap.
Qed.

Lemma isort_perm l : Permutation (isort l) l.
Proof.
  induction l as [|x l IH]; simpl; trivial.
  rewrite insert_perm. now constructor.
Qed.

Lemma sorted_perm reverse l : Permutation (sorted key lt reverse l) l.
Proof.
  unfold sorted. destruct reverse; [|apply isort_perm].
  now rewrite <- Permutation_rev, isort_perm, <- Permutation_rev.
Qed.

Lemma sorted_In reverse l x : In x (sorted key lt reverse l) <-> In x l.
Proof.
  split; apply Permutation_in;
    [|symmetry]; apply sorted_perm.
Qed.

(** Stability: records that [<] does not tell apart keep their order. *)
Lemma filter_insert (P : A -> bool) x l :
  (P x = true -> forall y, In y l -> P y = true -> lt (key y) (key x) = false) ->
  filter P (insert x l) = filter P (x :: l).
Proof.
  induction l as [|y l IH]; intros Hx; trivial.
  simpl insert. destruct (lt (key y) (key x)) eqn:E; trivial.
  simpl. rewrite IH by (intros Px z Hz; apply Hx; simpl; auto).
  simpl. destruct (P x) eqn:Px, (P y) eqn:Py; trivial.
  rewrite Hx in E; simpl; auto. discriminate.
Qed.

Lemma filter_isort (P : A -> bool) l :
  (forall x y, In x l -> In y l -> P x = true -> P y = true ->
               lt (key y) (key x) = false) ->
  filter P (isort l) = filter P l.
Proof.
  induction l as [|x l IH]; intros Hl; trivial.
  simpl isort. rewrite filter_insert.
  - simpl. rewrite IH; trivial. intros; apply Hl; simpl; auto.
  - intros Px y Hy Py. apply Hl; simpl; auto.
    right. eapply Permutation_in; [apply isort_perm|exact Hy].
Qed.

Lemma filter_sorted (P : A -> bool) reverse l :
  (forall x y, In x l -> In y l -> P x = true -> P y = true ->
               lt (key y) (key x) = false) ->
  filter P (sorted key lt reverse l) = filter P l.
Proof.
  intros Hl. unfold sorted. destruct reverse.
  - rewrite filter_rev, filter_isort, filter_rev, rev_involutive; trivial.
    intros x y Hx Hy. apply Hl; now apply in_rev.
  - now apply filter_isort.
Qed.

(** A list already in order is left as it is. *)
Lemma isort_ascending l : ascending l -> isort l = l.
Proof.
  induction 1 as [|x l Hl IH Hx]; trivial.
  simpl. rewrite IH. destruct l as [|y l]; trivial.
  simpl. inversion Hx as [|? ? Hy]; subst. now rewrite Hy.
Qed.

Lemma sorted_descending l : descending l -> sorted key lt true l = l.
Proof.
  intros Hl. unfold sorted.
  rewrite isort_ascending, rev_involutive; trivial.
  apply (StronglySorted_rev Hl).
Qed.

Section Ordered.
Hypothesis lt_asym : forall a b, lt a b = true -> lt b a = false.
Hypothesis ge_trans :
  forall a b c, lt b a = false -> lt c b = false -> lt c a = false.

Lemma insert_ascending x l : ascending l -> ascending (insert x l).
Proof.
  induction 1 as [|y l Hl IH Hy]; simpl.
  - repeat constructor.
  - destruct (lt (key y) (key x)) eqn:E.
    + constructor; trivial.
      eapply Permutation_Forall; [symmetry; apply insert_perm|].
      constructor; auto.
    + constructor; [now constructor|].
      constructor; trivial.
      eapply Forall_impl; [|exact Hy]. simpl. eauto.
Qed.

Lemma isort_is_ascending l : ascending (isort l).
Proof.
  induction l as [|x l IH]; simpl; [constructor|].
  now apply insert_ascending.
Qed.

Lemma sorted_is_descending l : descending (sorted key lt true l).
Proof.
  unfold sorted, descending.
  apply (StronglySorted_rev (isort_is_ascending (rev l))).
Qed.
End Ordered.
End SortingFacts.

(** Two lists in order that agree on the records of every key are the
    same list. *)
Section SortedUnique.
Variables (A K : Type) (key : A -> K) (has_key : K -> A -> bool).
Variable R : A -> A -> Prop.
Hypothesis has_key_spec : forall k a, has_key k a = true <-> key a = k.
Hypothesis R_antisym : forall a b, R a b -> R b a -> key a = key b.

Lemma filter_all_nil (l : list A) :
  (forall k, filter (has_key k) l = []) -> l = [].
Proof.
  destruct l as [|a l]; trivial. intros Hk.
  specialize (Hk (key a)). simpl in Hk.
  now rewrite (proj2 (has_key_spec (key a) a) eq_refl) in Hk.
Qed.

Lemma sorted_unique (l1 l2 : list A) :
  StronglySorted R l1 -> StronglySorted R l2 ->
  (forall k, filter (has_key k) l1 = filter (has_key k) l2) ->
  l1 = l2.
Proof.
  intros S1. revert l2.
  induction S1 as [|x l1 S1 IH Hx]; intros l2 S2 Hf.
  - symmetry. apply filter_all_nil. intros k. now rewrite <- Hf.
  - destruct S2 as [|y l2 S2 Hy].
    + exfalso. specialize (Hf (key x)). simpl in Hf.
      now rewrite (proj2 (has_key_spec (key x) x) eq_refl) in Hf.
    + assert (Hxx : has_key (key x) x = true) by now apply has_key_spec.
      assert (Hyy : has_key (key y) y = true) by now apply has_key_spec.
      assert (Hk : key x = key y).
      { assert (In x (y :: l2)) as [->|Hin].
        { apply (proj1 (filter_In (has_key (key x)) x (y :: l2))).
          rewrite <- Hf. simpl. rewrite Hxx. now left. }
        { trivial. }
        assert (In y (x :: l1)) as [->|Hin'].
        { apply (proj1 (filter_In (has_key (key y)) y (x :: l1))).
          rewrite Hf. simpl. rewrite Hyy. now left. }
        { trivial. }
        rewrite Forall_forall in Hx, Hy. auto. }
      assert (Hxy : x = y).
      { specialize (Hf (key x)). simpl in Hf.
        rewrite Hxx in Hf. rewrite Hk in Hf at 2. rewrite Hyy in Hf.
        congruence. }
      subst y. f_equal. apply IH; trivial.
      intros k. specialize (Hf k). simpl in Hf.
      destruct (has_key k x); congruence.
Qed.
End SortedUnique.

(* ================================================================= *)
(** ** Facts about the failsafe parser *)

Lemma encode_ascii_ignore_ascii (s : str) :
  forallb is_ascii (encode_ascii_ignore s) = true.
Proof.
  unfold encode_ascii_ignore. induction s as [|c s IH]; simpl; trivial.
  destruct (is_ascii c) eqn:E; simpl; trivial. now rewrite E.
Qed.

Lemma encode_ascii_ignore_id (s : str) :
  forallb is_ascii s = true -> encode_ascii_ignore s = s.
Proof.
  unfold encode_ascii_ignore. induction s as [|c s IH]; simpl; trivial.
  intros [-> Hs]%andb_prop. now rewrite IH.
Qed.

Lemma decode_ascii_ok (b : bytes) :
  forallb is_ascii b = true -> decode_ascii b = Ok b.
Proof.
  induction b as [|c b IH]; simpl; trivial.
  intros [-> Hb]%andb_prop. now rewrite IH.
Qed.

Lemma forallb_is_ascii_app (a b : str) :
  forallb is_ascii a = true -> forallb is_ascii b = true ->
  forallb is_ascii (a ++ b) = true.
Proof. intros Ha Hb. rewrite forallb_app. now rewrite Ha, Hb. Qed.

Lemma replace_from_ascii (old new : str) (s : str) :
  forallb is_ascii new = true -> forallb is_ascii s = true ->
  forall skip, forallb is_ascii (replace_from old new skip s) = true.
Proof.
  intros Hnew. induction s as [|c s IH]; simpl; trivial.
  intros [Hc Hs]%andb_prop [|k]; auto.
  destruct old as [|o old]; simpl.
  - apply forallb_is_ascii_app; auto.
  - destruct ((c =? o) && startswith s old); simpl.
    + apply forallb_is_ascii_app; auto.
    + rewrite Hc. simpl. auto.
Qed.

(** After the replacement no wildcard is left, so the parser calls
    itself at most once. *)
Lemma replace_from_0 (old new : str) c (s : str) :
  replace_from old new 0 (c :: s) =
  if startswith (c :: s) old
  then new ++ replace_from old new (Nat.pred (length old)) s
  else c :: replace_from old new 0 s.
Proof. reflexivity. Qed.

Lemma replace_head_not_x (s : str) c r :
  replace_from [46; 120] [46; 57; 57; 57; 57; 57; 57] 0 s = c :: r ->
  c = 120 -> exists s', s = 120 :: s'.
Proof.
  destruct s as [|c0 s]; [discriminate|]. rewrite replace_from_0.
  destruct (startswith _ _).
  - intros [= <- _]. discriminate.
  - intros [= -> _] ->. eauto.
Qed.

Lemma replace_no_wildcard (s : str) :
  forall skip,
    str_contains (lit ".x") (replace_from (lit ".x") (lit ".999999") skip s)
    = false.
Proof.
  change (lit ".x") with [46; 120].
  change (lit ".999999") with [46; 57; 57; 57; 57; 57; 57].
  induction s as [|c s IH]; intros skip; trivial.
  destruct skip as [|k]; [|apply IH]. rewrite replace_from_0.
  destruct (startswith (c :: s) [46; 120]) eqn:E.
  - apply (IH 1%nat).
  - specialize (IH 0%nat).
    destruct (replace_from _ _ 0 s) as [|c' r] eqn:R.
    + simpl. now destruct (c =? 46).
    + change (startswith (c :: c' :: r) [46; 120]
              || str_contains [46; 120] (c' :: r) = false).
      rewrite IH, orb_false_r. simpl in E |- *.
      destruct (c =? 46); trivial. simpl in E |- *.
      destruct (c' =? 120) eqn:E'; trivial.
      apply N.eqb_eq in E'.
      destruct (replace_head_not_x _ R E') as [s' ->].
      simpl in E. discriminate.
Qed.

Lemma parse_raises_InvalidVersion (s : str) e :
  packaging.parse s = Raise e -> e = InvalidVersion.
Proof.
  unfold packaging.parse.
  repeat match goal with
         | |- context [match ?x with _ => _ end] => destruct x
         end; congruence.
Qed.

Section FailsafeFacts.
Variable normalize_NFKD : str -> str.
Hypothesis nfkd_ascii : NFKD_keeps_ascii normalize_NFKD.

Lemma failsafe_rec_unfold depth version_string :
  parse_version_failsafe_rec normalize_NFKD (S depth) version_string =
  (uni_version <-
     match version_string with
     | PyStr s => Ok s
     | PyBytes b => decode_utf8 b
     end ;;
   match decode_ascii (encode_ascii_ignore (normalize_NFKD uni_version)) with
   | Raise e =>
       if issubclass e InvalidVersion then Ok None
       else if issubclass e UnicodeError then Ok None
       else Raise e
   | Ok final_form =>
       match packaging.parse final_form with
       | Ok v => Ok (Some v)
       | Raise e =>
           if issubclass e InvalidVersion then
             if negb (str_eqb final_form [])
                && str_contains (lit ".x") final_form
             then
               parse_version_failsafe_rec normalize_NFKD depth
                 (PyStr (str_replace final_form (lit ".x") (lit ".999999")))
             else Ok None
           else if issubclass e UnicodeError then Ok None
           else Raise e
       end
   end).
Proof. reflexivity. Qed.

(** On a [str] two calls are enough and no exception escapes. *)
Lemma failsafe_rec_str depth (s : str) :
  parse_version_failsafe_rec normalize_NFKD (S (S depth)) (PyStr s) =
  Ok (failsafe_value (encode_ascii_ignore (normalize_NFKD s))).
Proof.
  rewrite failsafe_rec_unfold. unfold bind, failsafe_value.
  set (final_form := encode_ascii_ignore (normalize_NFKD s)).
  assert (Ha : forallb is_ascii final_form = true)
    by apply encode_ascii_ignore_ascii.
  rewrite (decode_ascii_ok _ Ha).
  destruct (packaging.parse final_form) as [v|e] eqn:P; trivial.
  apply parse_raises_InvalidVersion in P. subst e.
  change (issubclass InvalidVersion InvalidVersion) with true. cbv iota.
  destruct (negb (str_eqb final_form []) && _); trivial.
  rewrite failsafe_rec_unfold. unfold bind.
  set (replaced := str_replace final_form (lit ".x") (lit ".999999")).
  assert (Hr : forallb is_ascii replaced = true)
    by (apply replace_from_ascii; trivial).
  rewrite (nfkd_ascii _ Hr), (encode_ascii_ignore_id _ Hr),
    (decode_ascii_ok _ Hr).
  destruct (packaging.parse replaced) as [v|e] eqn:P; trivial.
  apply parse_raises_InvalidVersion in P. subst e.
  change (issubclass InvalidVersion InvalidVersion) with true. cbv iota.
  unfold replaced, str_replace. rewrite replace_no_wildcard.
  now rewrite andb_false_r.
Qed.

Lemma failsafe_str (s : str) :
  parse_version_failsafe normalize_NFKD (PyStr s) =
  Ok (failsafe_value (encode_ascii_ignore (normalize_NFKD s))).
Proof. apply failsafe_rec_str. Qed.
End FailsafeFacts.

Lemma nfkd_on_ascii_keeps_ascii : NFKD_keeps_ascii nfkd_on_ascii.
Proof. intros s _. reflexivity. Defined.

(** [comparable_version] on an ASCII [str], in terms of the closed form. *)
Lemma comparable_version_str normalize_NFKD backend_cls (s : str) repo_type :
  NFKD_keeps_ascii normalize_NFKD ->
  forallb is_ascii s = true ->
  comparable_version normalize_NFKD backend_cls (PyStr s) repo_type =
  match failsafe_value s with
  | Some v => Ok v
  | None =>
      let highest_versions := highest_versions backend_cls repo_type in
      if list_contains s highest_versions
      then packaging.parse
             (str_of_N (999999 - N.of_nat (list_index s highest_versions)))
      else packaging.parse (lit "0.01")
  end.
Proof.
  intros Hn Hs. unfold comparable_version.
  rewrite (failsafe_str Hn), (Hn _ Hs), (encode_ascii_ignore_id _ Hs).
  reflexivity.
Qed.

(* ================================================================= *)
(** ** The failsafe parser and the comparable key *)

(** On a [str] the failsafe parser returns a version or [None]; this
    is the part of C3 that holds. *)
Lemma parse_version_failsafe_str_total normalize_NFKD (s : str) :
  NFKD_keeps_ascii normalize_NFKD ->
  exists r, parse_version_failsafe normalize_NFKD (PyStr s) = Ok r.
Proof. intros Hn. rewrite (failsafe_str Hn). eauto. Qed.

(** Undecodable [bytes] raise whatever the decoder raises. *)
Lemma parse_version_failsafe_bytes_decode_error normalize_NFKD (b : bytes) e :
  decode_utf8 b = Raise e ->
  parse_version_failsafe normalize_NFKD (PyBytes b) = Raise e.
Proof.
  intros H. unfold parse_version_failsafe, recursion_limit.
  rewrite failsafe_rec_unfold. now rewrite H.
Qed.

(** C3, where the code departs from it: a [bytes] input that is not
    valid UTF-8 is decoded before the [try] block is entered, and the
    [UnicodeDecodeError] reaches the caller. *)
Theorem parse_version_failsafe_undecodable_bytes_raise normalize_NFKD :
  parse_version_failsafe normalize_NFKD (PyBytes [255]) =
  Raise UnicodeDecodeError.
Proof. reflexivity. Qed.

(** C2: with a repository kind whose default branch is [master], the
    keys of [master], [latest], [stable], [3.9.0] and [garbage-branch]
    form a strictly descending chain. *)
Theorem comparable_version_descending_chain
    normalize_NFKD backend_cls (repo_type : str) backend :
  NFKD_keeps_ascii normalize_NFKD ->
  repo_type <> [] ->
  backend_cls repo_type = Some backend ->
  fallback_branch backend = Some (lit "master") ->
  let key := fun name => comparable_version normalize_NFKD backend_cls
                           (PyStr (lit name)) (Some repo_type) in
  exists master latest stable v390 garbage,
    key "master"%string = Ok master /\
    key "latest"%string = Ok latest /\
    key "stable"%string = Ok stable /\
    key "3.9.0"%string = Ok v390 /\
    key "garbage-branch"%string = Ok garbage /\
    packaging.lt latest master = true /\
    packaging.lt stable latest = true /\
    packaging.lt v390 stable = true /\
    packaging.lt garbage v390 = true.
Proof.
  intros Hn Hrt Hb Hf key.
  assert (Hh : highest_versions backend_cls (Some repo_type)
               = [lit "master"; LATEST_VERBOSE_NAME; STABLE_VERBOSE_NAME]).
  { unfold highest_versions. destruct repo_type; [congruence|].
    now rewrite Hb, Hf. }
  unfold key.
  rewrite !(@comparable_version_str _ backend_cls _ _ Hn) by reflexivity.
  rewrite Hh.
  do 5 eexists. repeat split; try (vm_compute; reflexivity).
Qed.

Lemma comparable_version_descending_chain_witness :
  exists master latest stable v390 garbage,
    comparable_version nfkd_on_ascii git_backend_cls
      (PyStr (lit "master")) (Some (lit "git")) = Ok master /\
    comparable_version nfkd_on_ascii git_backend_cls
      (PyStr (lit "latest")) (Some (lit "git")) = Ok latest /\
    comparable_version nfkd_on_ascii git_backend_cls
      (PyStr (lit "stable")) (Some (lit "git")) = Ok stable /\
    comparable_version nfkd_on_ascii git_backend_cls
      (PyStr (lit "3.9.0")) (Some (lit "git")) = Ok v390 /\
    comparable_version nfkd_on_ascii git_backend_cls
      (PyStr (lit "garbage-branch")) (Some (lit "git")) = Ok garbage /\
    packaging.lt latest master = true /\
    packaging.lt stable latest = true /\
    packaging.lt v390 stable = true /\
    packaging.lt garbage v390 = true.
Proof.
  apply (@comparable_version_descending_chain nfkd_on_ascii git_backend_cls
           (lit "git") {| fallback_branch := Some (lit "master") |}).
  - exact nfkd_on_ascii_keeps_ascii.
  - discriminate.
  - reflexivity.
  - reflexivity.
Defined.

(** C8: the wildcard [.x] is read as [.999999].  [1.x] and [1.0.x] get
    the versions of [1.999999] and [1.0.999999], and every ASCII name
    that is not a version but contains [.x] is parsed as the name with
    each [.x] replaced. *)
Theorem wildcard_parsed_as_999999 normalize_NFKD backend_cls :
  NFKD_keeps_ascii normalize_NFKD ->
  let failsafe := fun s => parse_version_failsafe normalize_NFKD (PyStr s) in
  let key := fun name => comparable_version normalize_NFKD backend_cls
                           (PyStr (lit name)) None in
  key "1.x"%string = Ok (packaging.mkVersion 0 [1; 999999] None None None None) /\
  key "1.x"%string = key "1.999999"%string /\
  failsafe (lit "1.x") = failsafe (lit "1.999999") /\
  failsafe (lit "1.0.x") = failsafe (lit "1.0.999999") /\
  failsafe (lit "1.0.x")
  = Ok (Some (packaging.mkVersion 0 [1; 0; 999999] None None None None)) /\
  forall s,
    forallb is_ascii s = true ->
    packaging.parse s = Raise InvalidVersion ->
    str_contains (lit ".x") s = true ->
    failsafe s = failsafe (str_replace s (lit ".x") (lit ".999999")).
Proof.
  intros Hn failsafe key. unfold key, failsafe.
  rewrite !(@comparable_version_str _ backend_cls _ _ Hn) by reflexivity.
  repeat split; try (rewrite !(failsafe_str Hn), !Hn by reflexivity;
                     vm_compute; reflexivity).
  intros s Hs Hp Hx.
  assert (Hr : forallb is_ascii (str_replace s (lit ".x") (lit ".999999")) = true)
    by (apply replace_from_ascii; trivial).
  rewrite !(failsafe_str Hn), (Hn _ Hs), (Hn _ Hr),
    (encode_ascii_ignore_id _ Hs), (encode_ascii_ignore_id _ Hr).
  f_equal. unfold failsafe_value at 1. rewrite Hp, Hx.
  assert (Hne : str_eqb s [] = false) by (destruct s; [discriminate|trivial]).
  rewrite Hne. simpl negb. cbv iota.
  unfold failsafe_value.
  destruct (packaging.parse (str_replace s _ _)); trivial.
  unfold str_replace. rewrite replace_no_wildcard. now rewrite andb_false_r.
Qed.

Lemma wildcard_parsed_as_999999_witness :
  comparable_version nfkd_on_ascii git_backend_cls (PyStr (lit "1.x")) None
  = comparable_version nfkd_on_ascii git_backend_cls
      (PyStr (lit "1.999999")) None /\
  parse_version_failsafe nfkd_on_ascii (PyStr (lit "2.x.x"))
  = parse_version_failsafe nfkd_on_ascii (PyStr (lit "2.999999.999999")).
Proof.
  pose proof (@wildcard_parsed_as_999999 nfkd_on_ascii git_backend_cls
                nfkd_on_ascii_keeps_ascii) as H.
  cbv zeta in H. destruct H as (_ & H1 & _ & _ & _ & H).
  split; [exact H1|].
  apply (H (lit "2.x.x")); reflexivity.
Defined.

Lemma cmp_pair_fst_lt {A B} `{Ord A} `{Ord B} (p q : A * B) :
  cmp (fst p) (fst q) = Lt -> cmp p q = Lt.
Proof.
  intros E. unfold cmp at 1. unfold Ord_pair, pair_cmp. now rewrite E.
Qed.

Lemma sentinel_key_lt (w : packaging.Version) :
  cmp (0, [0; 1]) (packaging.epoch w, packaging.trimmed_release w) = Lt ->
  cmp (packaging._cmpkey sentinel) (packaging._cmpkey w) = Lt.
Proof.
  intros E. unfold packaging._cmpkey.
  do 4 (apply cmp_pair_fst_lt; cbn [fst]). exact E.
Qed.




(* ================================================================= *)
(** ** [sort_versions] and [determine_stable_version] *)

Lemma comparable_pairs_inv normalize_NFKD l ps :
  comparable_pairs normalize_NFKD l = Ok ps ->
  ps = parsed_pairs normalize_NFKD l.
Proof.
  revert ps. induction l as [|v l IH]; simpl; intros ps.
  - now intros [= <-].
  - destruct (parse_version_failsafe _ _) as [c|e]; simpl; [|discriminate].
    destruct (comparable_pairs normalize_NFKD l) as [qs|e]; simpl;
      [|discriminate].
    rewrite <- (IH qs eq_refl). destruct c; now intros [= <-].
Qed.

Lemma comparable_pairs_ok normalize_NFKD l :
  NFKD_keeps_ascii normalize_NFKD ->
  comparable_pairs normalize_NFKD l = Ok (parsed_pairs normalize_NFKD l).
Proof.
  intros Hn. induction l as [|v l IH]; simpl; trivial.
  rewrite IH, (failsafe_str Hn). simpl.
  now destruct (failsafe_value _).
Qed.

Lemma sort_versions_inv normalize_NFKD l out :
  sort_versions normalize_NFKD l = Ok out ->
  out = sorted snd packaging.lt true (parsed_pairs normalize_NFKD l).
Proof.
  unfold sort_versions.
  destruct (comparable_pairs normalize_NFKD l) as [ps|e] eqn:E; simpl;
    [|discriminate].
  intros [= <-]. now rewrite (comparable_pairs_inv _ _ E).
Qed.

Lemma sort_versions_ok normalize_NFKD l :
  NFKD_keeps_ascii normalize_NFKD ->
  sort_versions normalize_NFKD l =
  Ok (sorted snd packaging.lt true (parsed_pairs normalize_NFKD l)).
Proof.
  intros Hn. unfold sort_versions. now rewrite (comparable_pairs_ok _ Hn).
Qed.

Lemma parsed_pairs_In normalize_NFKD l v c :
  In (v, c) (parsed_pairs normalize_NFKD l) <->
  In v l /\
  parse_version_failsafe normalize_NFKD (PyStr (models.verbose_name v))
  = Ok (Some c).
Proof.
  unfold parsed_pairs. rewrite in_flat_map. split.
  - intros (v' & Hv' & Hin).
    destruct (parse_version_failsafe _ _) as [[c'|]|e] eqn:E;
      simpl in Hin; try tauto.
    destruct Hin as [[= <- <-]|[]]. auto.
  - intros (Hv & E). exists v. rewrite E. simpl. auto.
Qed.

Lemma sorted_descending_versions
    (ps : list (models.Version * packaging.Version)) :
  descending snd packaging.lt (sorted snd packaging.lt true ps).
Proof.
  apply sorted_is_descending.
  - apply version_lt_asym.
  - apply version_ge_trans.
Qed.







(* ================================================================= *)
(** ** The generic engine *)

Lemma str_eqb_eq (a b : str) : str_eqb a b = true <-> a = b.
Proof.
  revert b. induction a as [|x a IH]; intros [|y b]; simpl;
    try (split; congruence).
  rewrite andb_true_iff, N.eqb_eq, IH. split; [intros [-> ->]|intros [= -> ->]];
    auto.
Qed.

Lemma str_eqb_refl (a : str) : str_eqb a a = true.
Proof. now apply str_eqb_eq. Qed.

Lemma has_slug_spec s v : has_slug s v = true <-> models.slug v = s.
Proof. apply str_eqb_eq. Qed.

Lemma filter_filter {A} (f g : A -> bool) (l : list A) :
  filter f (filter g l) = filter (fun x => f x && g x) l.
Proof.
  induction l as [|a l IH]; simpl; trivial.
  destruct (g a); simpl; rewrite ?IH, ?andb_true_r, ?andb_false_r; trivial.
Qed.

Lemma filter_none {A} (f : A -> bool) (l : list A) :
  (forall x, In x l -> f x = false) -> filter f l = [].
Proof.
  induction l as [|a l IH]; simpl; trivial. intros H.
  rewrite (H a) by auto. auto.
Qed.

Lemma filter_map_fst {A B} (f : A -> bool) (l : list (A * B)) :
  filter f (map fst l) = map fst (filter (fun p => f (fst p)) l).
Proof.
  induction l as [|a l IH]; simpl; trivial.
  destruct (f (fst a)); simpl; now rewrite IH.
Qed.

(** Sorting records decorated with their key is sorting the records. *)
Lemma isort_decorated {A K} (key : A -> K) (lt : K -> K -> bool) (l : list A) :
  isort snd lt (map (fun a => (a, key a)) l)
  = map (fun a => (a, key a)) (isort key lt l).
Proof.
  induction l as [|x l IH]; simpl; trivial. rewrite IH.
  generalize (isort key lt l). intros m.
  induction m as [|y m IHm]; simpl; trivial.
  destruct (lt (key y) (key x)); simpl; now rewrite ?IHm.
Qed.

Lemma alphabetically_sorted_descending l :
  StronglySorted slug_descending (alphabetically_sorted l).
Proof.
  refine (@sorted_is_descending _ _ models.slug py_lt _ _ l).
  - apply py_lt_asym.
  - apply py_ge_trans.
Qed.

Lemma filter_has_slug_sorted s reverse l :
  filter (has_slug s) (sorted models.slug py_lt reverse l)
  = filter (has_slug s) l.
Proof.
  apply filter_sorted. intros x y _ _ Hx Hy.
  apply has_slug_spec in Hx, Hy. rewrite Hx, Hy. apply py_lt_irrefl.
Qed.

Lemma filter_slug_class (f : str -> bool) l s :
  filter (has_slug s) (filter (fun v => f (models.slug v)) l)
  = if f s then filter (has_slug s) l else [].
Proof.
  rewrite filter_filter. destruct (f s) eqn:Ef.
  - apply filter_ext_in. intros v _.
    destruct (has_slug s v) eqn:E; trivial.
    apply has_slug_spec in E. now rewrite E, Ef.
  - apply filter_none. intros v _.
    destruct (has_slug s v) eqn:E; trivial.
    apply has_slug_spec in E. now rewrite E, Ef.
Qed.

Lemma StronglySorted_all {A} (R : A -> A -> Prop) (l : list A) :
  (forall a b, In a l -> In b l -> R a b) -> StronglySorted R l.
Proof.
  induction l as [|a l IH]; intros H; constructor.
  - apply IH. intros; apply H; simpl; auto.
  - apply Forall_forall. intros b Hb. apply H; simpl; auto.
Qed.

(** The records named [latest], then those named [stable]. *)
Lemma latest_then_stable_ascending l :
  StronglySorted slug_ascending
    (filter (has_slug LATEST) l ++ filter (has_slug STABLE) l).
Proof.
  apply StronglySorted_app.
  - apply StronglySorted_all. intros a b [_ Ha]%filter_In [_ Hb]%filter_In.
    apply has_slug_spec in Ha, Hb. unfold slug_ascending. now rewrite Ha, Hb.
  - apply StronglySorted_all. intros a b [_ Ha]%filter_In [_ Hb]%filter_In.
    apply has_slug_spec in Ha, Hb. unfold slug_ascending. now rewrite Ha, Hb.
  - intros a b [_ Ha]%filter_In [_ Hb]%filter_In.
    apply has_slug_spec in Ha, Hb. unfold slug_ascending. now rewrite Ha, Hb.
Qed.

Section GenericFacts.
Variables (K : Type) (K_lt : K -> K -> bool).
Variable exception : exn.
Variable parse_version : str -> option str -> Res K.
Variable pin : bool.
Variable raw_pattern : option str.

Local Abbreviation classify := (classify exception parse_version pin raw_pattern).
Local Abbreviation is_pinned := (is_pinned pin).
Local Abbreviation is_valid := (is_valid parse_version pin raw_pattern).
Local Abbreviation is_invalid :=
  (is_invalid exception parse_version pin raw_pattern).
Local Abbreviation generic :=
  (sort_versions_generic K_lt exception parse_version pin raw_pattern).
Local Abbreviation declared :=
  (failures_declared exception parse_version pin raw_pattern).

Lemma class_pinned v :
  is_pinned v = true -> is_valid v = false /\ is_invalid v = false.
Proof.
  unfold is_pinned, is_valid, is_invalid, valid_slug, invalid_slug,
    pinned_slug.
  intros ->. auto.
Qed.

Lemma class_valid v k :
  is_pinned v = false ->
  parse_version (models.slug v) raw_pattern = Ok k ->
  is_valid v = true /\ is_invalid v = false.
Proof.
  unfold is_pinned, is_valid, is_invalid, valid_slug, invalid_slug,
    pinned_slug.
  intros -> ->. auto.
Qed.

Lemma class_invalid v e :
  is_pinned v = false ->
  parse_version (models.slug v) raw_pattern = Raise e ->
  issubclass e exception = true ->
  is_valid v = false /\ is_invalid v = true.
Proof.
  unfold is_pinned, is_valid, is_invalid, valid_slug, invalid_slug,
    pinned_slug.
  intros -> -> ->. auto.
Qed.

Lemma class_cases v :
  is_pinned v || is_valid v || is_invalid v = true ->
  (is_pinned v = true /\ is_valid v = false /\ is_invalid v = false) \/
  (is_pinned v = false /\ is_valid v = true /\ is_invalid v = false) \/
  (is_pinned v = false /\ is_valid v = false /\ is_invalid v = true).
Proof.
  unfold is_pinned, is_valid, is_invalid, valid_slug, invalid_slug,
    pinned_slug.
  destruct (pin && _); simpl; auto.
  destruct (parse_version _ _) as [k|e]; simpl; auto.
Qed.

(** The three lists the loop builds. *)
Lemma classify_inv l initial valid invalid :
  classify l = Ok (initial, valid, invalid) ->
  initial = map (fun v => (v, models.slug v)) (filter is_pinned l) /\
  map fst valid = filter is_valid l /\
  Forall (fun p => parse_version (models.slug (fst p)) raw_pattern
                   = Ok (snd p)) valid /\
  invalid = filter is_invalid l /\
  (forall v, In v l -> is_pinned v || is_valid v || is_invalid v = true).
Proof.
  revert initial valid invalid.
  induction l as [|v l IH]; intros initial valid invalid.
  - intros [= <- <- <-]. repeat split; trivial. now intros v [].
  - simpl classify. destruct (is_pinned v) eqn:Ep.
    + destruct (classify l) as [[[i va] inv]|e]; simpl; [|discriminate].
      intros [= <- <- <-].
      destruct (IH _ _ _ eq_refl) as (Hi & Hv & Hp & Hinv & Hall).
      destruct (class_pinned _ Ep) as [E1 E2].
      simpl filter. rewrite Ep, E1, E2. subst i inv.
      repeat split; trivial.
      intros w [<-|Hw]; [now rewrite Ep|auto].
    + destruct (parse_version (models.slug v) raw_pattern) as [k|e] eqn:P.
      * destruct (classify l) as [[[i va] inv]|e]; simpl; [|discriminate].
        intros [= <- <- <-].
        destruct (IH _ _ _ eq_refl) as (Hi & Hv & Hp & Hinv & Hall).
        destruct (class_valid _ Ep P) as [E1 E2].
        simpl filter. rewrite Ep, E1, E2. subst i inv.
        repeat split; simpl; trivial.
        -- now rewrite Hv.
        -- now constructor.
        -- intros w [<-|Hw]; [now rewrite Ep, E1|auto].
      * destruct (issubclass e exception) eqn:Es; [|discriminate].
        destruct (classify l) as [[[i va] inv]|e']; simpl; [|discriminate].
        intros [= <- <- <-].
        destruct (IH _ _ _ eq_refl) as (Hi & Hv & Hp & Hinv & Hall).
        destruct (class_invalid _ Ep P Es) as [E1 E2].
        simpl filter. rewrite Ep, E1, E2. subst i inv.
        repeat split; simpl; trivial.
        intros w [<-|Hw]; [now rewrite Ep, E1, E2|auto].
Qed.

Lemma classify_ok l : declared l -> exists r, classify l = Ok r.
Proof.
  induction l as [|v l IH]; intros Hd; simpl; eauto.
  destruct IH as [[[i va] inv] ->].
  { intros w e Hw. apply Hd. now right. }
  destruct (is_pinned v) eqn:Ep; simpl; eauto.
  destruct (parse_version (models.slug v) raw_pattern) as [k|e] eqn:P;
    simpl; eauto.
  rewrite (Hd v e (or_introl eq_refl) Ep P). simpl. eauto.
Qed.

Lemma partition3_perm (l : list models.Version) :
  (forall v, In v l -> is_pinned v || is_valid v || is_invalid v = true) ->
  Permutation l (filter is_pinned l ++ filter is_valid l
                 ++ filter is_invalid l).
Proof.
  induction l as [|v l IH]; intros Hall; simpl; trivial.
  assert (IH' := IH (fun w Hw => Hall w (or_intror Hw))).
  destruct (class_cases v (Hall v (or_introl eq_refl)))
    as [(-> & -> & ->)|[(-> & -> & ->)|(-> & -> & ->)]]; simpl.
  - now constructor.
  - now apply Permutation_cons_app.
  - rewrite app_assoc. apply Permutation_cons_app. now rewrite <- app_assoc.
Qed.

(** The result, in terms of the alphabetical baseline. *)
Lemma generic_inv l out :
  generic l = Ok out ->
  let base := alphabetically_sorted l in
  exists valid,
    classify base
    = Ok (map (fun v => (v, models.slug v)) (filter is_pinned base),
          valid, filter is_invalid base) /\
    out = map fst (sorted snd py_lt false
                     (map (fun v => (v, models.slug v))
                          (filter is_pinned base)))
          ++ map fst (sorted snd K_lt true valid)
          ++ filter is_invalid base /\
    map fst valid = filter is_valid base /\
    Forall (fun p => parse_version (models.slug (fst p)) raw_pattern
                     = Ok (snd p)) valid /\
    (forall v, In v base ->
               is_pinned v || is_valid v || is_invalid v = true).
Proof.
  intros H base. unfold sort_versions_generic in H.
  fold base in H.
  destruct (classify base) as [[[i va] inv]|e] eqn:E; simpl in H;
    [|discriminate].
  injection H as <-.
  destruct (classify_inv _ E) as (-> & Hv & Hp & -> & Hall).
  exists va. repeat split; trivial.
Qed.

Lemma generic_ok l : declared l -> exists out, generic l = Ok out.
Proof.
  intros Hd. unfold sort_versions_generic.
  destruct (classify_ok (l := alphabetically_sorted l)) as [[[i va] inv] ->].
  { intros v e Hv. apply Hd. revert Hv. apply sorted_In. }
  simpl. eauto.
Qed.

(** The engine returns exactly when the failures are the declared ones. *)
Lemma generic_returns_iff_declared l :
  (exists out, generic l = Ok out) <-> declared l.
Proof.
  split; [|apply generic_ok].
  intros [out H] v e Hv Ep P.
  destruct (generic_inv _ H) as (_ & _ & _ & _ & _ & Hall).
  assert (Hin : In v (alphabetically_sorted l)) by now apply sorted_In.
  specialize (Hall v Hin). rewrite Ep in Hall.
  unfold is_valid, is_invalid, valid_slug, invalid_slug in Hall.
  rewrite P in Hall. change (pinned_slug pin (models.slug v)) with (is_pinned v) in Hall.
  rewrite Ep in Hall. exact Hall.
Qed.

Lemma generic_perm l out : generic l = Ok out -> Permutation l out.
Proof.
  intros H. destruct (generic_inv _ H) as (valid & _ & -> & Hv & _ & Hall).
  set (base := alphabetically_sorted l) in *.
  transitivity base.
  { symmetry. apply sorted_perm. }
  etransitivity; [apply (partition3_perm _ Hall)|].
  apply Permutation_app; [|apply Permutation_app; trivial].
  - etransitivity; [|apply Permutation_map; symmetry; apply sorted_perm].
    rewrite map_map. simpl. now rewrite map_id.
  - etransitivity; [|apply Permutation_map; symmetry; apply sorted_perm].
    now rewrite Hv.
Qed.
(** The pinned block is the pinned records sorted by slug. *)
Lemma pinned_block_sorted (P : list models.Version) :
  map fst (sorted snd py_lt false (map (fun v => (v, models.slug v)) P))
  = isort models.slug py_lt P.
Proof.
  unfold sorted. rewrite isort_decorated, map_map. simpl. apply map_id.
Qed.

Lemma filter_slug_pinned_block s base :
  filter (has_slug s) (isort models.slug py_lt (filter is_pinned base))
  = if pinned_slug pin s then filter (has_slug s) base else [].
Proof.
  etransitivity; [apply (filter_has_slug_sorted s false)|].
  apply (filter_slug_class (pinned_slug pin)).
Qed.

Section Stable.
Hypothesis K_lt_irrefl : forall k, K_lt k k = false.

Lemma filter_slug_valid_block s valid base :
  map fst valid = filter is_valid base ->
  Forall (fun p => parse_version (models.slug (fst p)) raw_pattern
                   = Ok (snd p)) valid ->
  filter (has_slug s) (map fst (sorted snd K_lt true valid))
  = if valid_slug parse_version pin raw_pattern s
    then filter (has_slug s) base else [].
Proof.
  intros Hv Hp. rewrite filter_map_fst, filter_sorted.
  - rewrite <- filter_map_fst, Hv.
    apply (filter_slug_class (valid_slug parse_version pin raw_pattern)).
  - intros x y Hx Hy Sx Sy. apply has_slug_spec in Sx, Sy.
    rewrite Forall_forall in Hp.
    pose proof (Hp x Hx) as Px. pose proof (Hp y Hy) as Py.
    rewrite Sx in Px. rewrite Sy in Py.
    assert (E : snd x = snd y) by congruence.
    rewrite E. apply K_lt_irrefl.
Qed.

(** The records of one slug come out in the order they went in. *)
Lemma filter_slug_generic s l out :
  generic l = Ok out -> filter (has_slug s) out = filter (has_slug s) l.
Proof.
  intros H. destruct (generic_inv _ H) as (valid & _ & -> & Hv & Hp & Hall).
  set (base := alphabetically_sorted l) in *.
  rewrite !filter_app, pinned_block_sorted, filter_slug_pinned_block,
    (filter_slug_valid_block s _ Hv Hp).
  rewrite (filter_slug_class
             (invalid_slug exception parse_version pin raw_pattern)).
  assert (Hb : filter (has_slug s) base = filter (has_slug s) l)
    by apply filter_has_slug_sorted.
  rewrite <- Hb.
  destruct (filter (has_slug s) base) as [|v rest] eqn:E.
  - now destruct (pinned_slug pin s), (valid_slug _ _ _ s),
      (invalid_slug _ _ _ _ s).
  - assert (In v base /\ has_slug s v = true) as [Hin Hs].
    { apply filter_In. rewrite E. now left. }
    apply has_slug_spec in Hs.
    pose proof (class_cases v (Hall v Hin)) as Hc.
    change (is_pinned v) with (pinned_slug pin (models.slug v)) in Hc.
    unfold is_valid, is_invalid in Hc. rewrite Hs in Hc.
    destruct Hc as [(-> & -> & ->)|[(-> & -> & ->)|(-> & -> & ->)]];
      simpl; now rewrite ?app_nil_r.
Qed.

(** Sorting the result alphabetically gives the baseline again. *)
Lemma baseline_fixed l out :
  generic l = Ok out ->
  alphabetically_sorted out = alphabetically_sorted l.
Proof.
  intros H.
  refine (@sorted_unique _ _ models.slug has_slug slug_descending
            _ _ _ _ _ _ _).
  - intros k a. apply has_slug_spec.
  - intros a b Hab Hba. now apply py_lt_total.
  - apply alphabetically_sorted_descending.
  - apply alphabetically_sorted_descending.
  - intros s. unfold alphabetically_sorted.
    rewrite !filter_has_slug_sorted. now apply filter_slug_generic.
Qed.

Lemma generic_idempotent l out :
  generic l = Ok out -> generic out = Ok out.
Proof.
  intros H. unfold sort_versions_generic.
  rewrite (@baseline_fixed l out H). exact H.
Qed.
End Stable.

(** The pinned block: the records named [latest], then those named
    [stable], each group in the order of the input. *)
Lemma pinned_block l :
  isort models.slug py_lt (filter is_pinned (alphabetically_sorted l))
  = if pin
    then filter (has_slug LATEST) l ++ filter (has_slug STABLE) l
    else [].
Proof.
  assert (pin = true \/ pin = false) as [Epin|Epin] by (destruct pin; auto).
  - replace (if pin
             then filter (has_slug LATEST) l ++ filter (has_slug STABLE) l
             else [])
      with (filter (has_slug LATEST) l ++ filter (has_slug STABLE) l)
      by now rewrite Epin.
    refine (@sorted_unique _ _ models.slug has_slug slug_ascending
              _ _ _ _ _ _ _).
    + intros k a. apply has_slug_spec.
    + intros a b Hab Hba. symmetry. now apply py_lt_total.
    + refine (@isort_is_ascending _ _ models.slug py_lt _ _ _).
      * apply py_lt_asym.
      * apply py_ge_trans.
    + apply latest_then_stable_ascending.
    + intros s. rewrite filter_slug_pinned_block. unfold alphabetically_sorted.
      rewrite filter_has_slug_sorted, filter_app.
      rewrite (filter_slug_class (fun x => str_eqb x LATEST)).
      rewrite (filter_slug_class (fun x => str_eqb x STABLE)).
      unfold pinned_slug, list_contains. rewrite Epin. simpl.
      destruct (str_eqb s STABLE) eqn:E1, (str_eqb s LATEST) eqn:E2;
        simpl; rewrite ?app_nil_r; trivial.
      apply str_eqb_eq in E1, E2. rewrite E1 in E2. discriminate E2.
  - replace (if pin
             then filter (has_slug LATEST) l ++ filter (has_slug STABLE) l
             else [])
      with (@nil models.Version) by now rewrite Epin.
    rewrite filter_none; trivial.
    intros v _. unfold is_pinned. now rewrite Epin.
Qed.
End GenericFacts.

Lemma valid_not_invalid {K} exception (parse_version : str -> option str -> Res K)
    pin raw_pattern v :
  is_valid parse_version pin raw_pattern v = true ->
  is_invalid exception parse_version pin raw_pattern v = false.
Proof.
  unfold is_valid, is_invalid, valid_slug, invalid_slug.
  destruct (negb _); simpl; trivial.
  now destruct (parse_version _ _).
Qed.

Lemma packaging_failures_declared l pin :
  failures_declared InvalidVersion (fun slug _ => packaging.parse slug) pin
    None l.
Proof.
  intros v e _ _ H. apply parse_raises_InvalidVersion in H. now subst e.
Defined.

(** C10: when every parse failure is of the declared class the engine
    returns, and what it returns is a permutation of its input: each
    record once, whether pinned, valid or invalid. *)
Theorem sort_versions_generic_is_permutation
    (K : Type) (K_lt : K -> K -> bool) exception
    (parse_version : str -> option str -> Res K) pin raw_pattern l :
  failures_declared exception parse_version pin raw_pattern l ->
  exists out,
    sort_versions_generic K_lt exception parse_version pin raw_pattern l
    = Ok out /\
    Permutation l out.
Proof.
  intros Hd. destruct (generic_ok K_lt Hd) as [out H].
  exists out. split; trivial. exact (generic_perm _ _ _ _ _ _ H).
Qed.

Lemma sort_versions_generic_is_permutation_witness :
  exists out,
    sort_versions_python_packaging four_names true = Ok out /\
    Permutation four_names out.
Proof.
  apply (@sort_versions_generic_is_permutation _ packaging.lt InvalidVersion
           (fun slug _ => packaging.parse slug) true None four_names).
  apply packaging_failures_declared.
Defined.

(** C6: a record whose parse raises the declared class never makes the
    engine raise and is never left out: the invalid records form the
    tail of the result, in the order of the alphabetical baseline, and
    nothing before that tail is invalid.  [sort_versions], by contrast,
    leaves out every record that does not parse. *)
Theorem sort_versions_generic_demotes_invalid
    (K : Type) (K_lt : K -> K -> bool) exception
    (parse_version : str -> option str -> Res K) pin raw_pattern l :
  failures_declared exception parse_version pin raw_pattern l ->
  exists out front,
    sort_versions_generic K_lt exception parse_version pin raw_pattern l
    = Ok out /\
    out = front ++ filter (is_invalid exception parse_version pin raw_pattern)
                     (alphabetically_sorted l) /\
    Forall (fun v => is_invalid exception parse_version pin raw_pattern v
                     = false) front /\
    (forall v, In v l ->
               is_invalid exception parse_version pin raw_pattern v = true ->
               In v out) /\
    (forall normalize_NFKD kept,
        sort_versions normalize_NFKD l = Ok kept ->
        forall v, parses normalize_NFKD v = false -> ~ In v (map fst kept)).
Proof.
  intros Hd. destruct (generic_ok K_lt Hd) as [out H].
  destruct (generic_inv _ _ _ _ _ _ H) as (valid & _ & E & Hv & _ & _).
  exists out. eexists. split; [exact H|].
  split; [rewrite app_assoc in E; exact E|].
  split; [|split].
  - apply Forall_app. split; apply Forall_forall; intros v Hin.
    + rewrite pinned_block_sorted in Hin.
      apply (Permutation_in _ (isort_perm _ _ _)) in Hin.
      apply filter_In in Hin. destruct Hin as [_ Hp].
      now destruct (class_pinned exception parse_version pin raw_pattern v Hp).
    + apply (Permutation_in _ (Permutation_map fst (sorted_perm snd K_lt true valid)))
        in Hin.
      rewrite Hv in Hin. apply filter_In in Hin. destruct Hin as [_ Hp].
      now apply valid_not_invalid.
  - intros v Hin Hinv. rewrite E. apply in_or_app. right.
    apply in_or_app. right.
    apply filter_In. split; trivial. now apply sorted_In.
  - intros normalize_NFKD kept Hk v Hv' [[v' c] [Hf Hin]]%in_map_iff.
    simpl in Hf. subst v'. rewrite (sort_versions_inv _ _ Hk) in Hin.
    apply sorted_In, parsed_pairs_In in Hin. destruct Hin as [_ Hp].
    unfold parses in Hv'. now rewrite Hp in Hv'.
Qed.

Lemma sort_versions_generic_demotes_invalid_witness :
  exists out front,
    sort_versions_python_packaging four_names true = Ok out /\
    out = front ++ [record "not-a-version" BRANCH].
Proof.
  destruct (@sort_versions_generic_demotes_invalid _ packaging.lt
              InvalidVersion (fun slug _ => packaging.parse slug) true None
              four_names (packaging_failures_declared four_names true))
    as (out & front & H & E & _).
  exists out, front. split; [exact H|exact E].
Defined.

Lemma filter_perm {A} (f : A -> bool) (l m : list A) :
  Permutation l m -> Permutation (filter f l) (filter f m).
Proof.
  induction 1 as [|x l m H IH|x y l|l m n H1 IH1 H2 IH2]; simpl.
  - constructor.
  - destruct (f x); auto.
  - destruct (f x), (f y); auto. apply perm_swap.
  - now transitivity (filter f m).
Qed.



Lemma comparable_pairs_of_parsed normalize_NFKD
    (ps : list (models.Version * packaging.Version)) :
  Forall (fun p => parse_version_failsafe normalize_NFKD
                     (PyStr (models.verbose_name (fst p)))
                   = Ok (Some (snd p))) ps ->
  comparable_pairs normalize_NFKD (map fst ps) = Ok ps.
Proof.
  induction 1 as [|[v c] ps Hp Hps IH]; simpl; trivial.
  simpl in Hp. now rewrite Hp, IH.
Qed.

Lemma sort_versions_idempotent normalize_NFKD l out :
  sort_versions normalize_NFKD l = Ok out ->
  sort_versions normalize_NFKD (map fst out) = Ok out.
Proof.
  intros H. apply sort_versions_inv in H. unfold sort_versions.
  rewrite comparable_pairs_of_parsed.
  - simpl. f_equal. apply sorted_descending. subst out.
    apply sorted_descending_versions.
  - apply Forall_forall. intros [v c] Hin. subst out.
    apply sorted_In, parsed_pairs_In in Hin. now destruct Hin.
Qed.

(** C9: sorting is idempotent.  [sort_versions] applied to the records
    of its own result returns that result, and the generic engine, so
    each of its specialisations, applied to its own result returns it
    unchanged. *)
Theorem sorting_is_idempotent
    normalize_NFKD l out
    (K : Type) (K_lt : K -> K -> bool) exception
    (parse_version : str -> option str -> Res K) pin raw_pattern l' out' :
  (forall k, K_lt k k = false) ->
  sort_versions normalize_NFKD l = Ok out ->
  sort_versions_generic K_lt exception parse_version pin raw_pattern l'
  = Ok out' ->
  sort_versions normalize_NFKD (map fst out) = Ok out /\
  sort_versions_generic K_lt exception parse_version pin raw_pattern out'
  = Ok out' /\
  (forall versions pinning sorted_versions,
      sort_versions_python_packaging versions pinning = Ok sorted_versions ->
      sort_versions_python_packaging sorted_versions pinning
      = Ok sorted_versions).
Proof.
  intros Hirr Hs Hg. split; [|split].
  - exact (sort_versions_idempotent _ _ Hs).
  - exact (generic_idempotent _ _ _ _ _ Hirr _ Hg).
  - intros versions pinning sorted_versions Hp.
    exact (generic_idempotent _ _ _ _ _ version_lt_irrefl _ Hp).
Qed.

Lemma sorting_is_idempotent_witness :
  sort_versions nfkd_on_ascii
    [record "2.0.0" TAG; record "1.5.0" TAG]
  = Ok [(record "2.0.0" TAG,
         packaging.mkVersion 0 [2; 0; 0] None None None None);
        (record "1.5.0" TAG,
         packaging.mkVersion 0 [1; 5; 0] None None None None)] /\
  sort_versions_python_packaging
    [record "latest" BRANCH; record "2.0.0" TAG; record "1.5.0" TAG;
     record "not-a-version" BRANCH] true
  = Ok [record "latest" BRANCH; record "2.0.0" TAG; record "1.5.0" TAG;
        record "not-a-version" BRANCH].
Proof.
  destruct (@sorting_is_idempotent nfkd_on_ascii four_names
              [(record "2.0.0" TAG,
                packaging.mkVersion 0 [2; 0; 0] None None None None);
               (record "1.5.0" TAG,
                packaging.mkVersion 0 [1; 5; 0] None None None None)]
              _ packaging.lt InvalidVersion
              (fun slug _ => packaging.parse slug) true None four_names
              [record "latest" BRANCH; record "2.0.0" TAG; record "1.5.0" TAG;
               record "not-a-version" BRANCH]
              version_lt_irrefl eq_refl eq_refl) as (H1 & H2 & _).
  split; [exact H1|exact H2].
Defined.

(* ================================================================= *)
(** ** Further properties of the failsafe parser and the key *)




(** X2: only the ASCII form of a name counts.  A [str] and the text
    left of it after NFKD and the removal of every non-ASCII character
    give the same result. *)
Theorem parse_version_failsafe_ignores_non_ascii normalize_NFKD (s : str) :
  NFKD_keeps_ascii normalize_NFKD ->
  parse_version_failsafe normalize_NFKD (PyStr s)
  = parse_version_failsafe normalize_NFKD
      (PyStr (encode_ascii_ignore (normalize_NFKD s))).
Proof.
  intros Hn. rewrite !(failsafe_str Hn).
  set (a := encode_ascii_ignore (normalize_NFKD s)).
  assert (Ha : forallb is_ascii a = true) by apply encode_ascii_ignore_ascii.
  now rewrite (Hn _ Ha), (encode_ascii_ignore_id _ Ha).
Qed.

Lemma parse_version_failsafe_ignores_non_ascii_witness :
  parse_version_failsafe nfkd_on_ascii (PyStr [49; 46; 8364; 48])
  = parse_version_failsafe nfkd_on_ascii (PyStr (lit "1.0")).
Proof.
  exact (@parse_version_failsafe_ignores_non_ascii nfkd_on_ascii
           [49; 46; 8364; 48] nfkd_on_ascii_keeps_ascii).
Defined.

Lemma highest_versions_shape backend_cls repo_type :
  highest_versions backend_cls repo_type
  = [LATEST_VERBOSE_NAME; STABLE_VERBOSE_NAME]
  \/ exists branch,
      highest_versions backend_cls repo_type
      = [branch; LATEST_VERBOSE_NAME; STABLE_VERBOSE_NAME].
Proof.
  unfold highest_versions.
  destruct repo_type as [[|c rt]|]; auto.
  destruct (backend_cls (c :: rt)) as [backend|]; auto.
  destruct (fallback_branch backend) as [[|d branch]|]; simpl; eauto.
Qed.

Lemma list_index_bound (x : str) (l : list str) :
  list_contains x l = true -> (list_index x l < length l)%nat.
Proof.
  unfold list_contains. induction l as [|y l IH]; simpl; [discriminate|].
  destruct (str_eqb y x) eqn:E; [lia|].
  destruct (str_eqb x y) eqn:E'.
  - apply str_eqb_eq in E'. subst y. now rewrite str_eqb_refl in E.
  - simpl. intros H. apply IH in H. lia.
Qed.

Lemma synthetic_index_le_2 backend_cls repo_type (x : str) :
  list_contains x (highest_versions backend_cls repo_type) = true ->
  (list_index x (highest_versions backend_cls repo_type) <= 2)%nat.
Proof.
  intros H. apply list_index_bound in H.
  destruct (highest_versions_shape backend_cls repo_type) as [E|[b E]];
    rewrite E in H |- *; cbn [length] in H; lia.
Qed.

Lemma parse_ceiling (position : nat) :
  (position <= 2)%nat ->
  packaging.parse (str_of_N (999999 - N.of_nat position))
  = Ok (ceiling position).
Proof.
  intros H. destruct position as [|[|[|n]]]; try lia; reflexivity.
Qed.

(** [comparable_version] on a [str], whatever its characters. *)
Lemma comparable_version_PyStr normalize_NFKD backend_cls (s : str) repo_type :
  comparable_version normalize_NFKD backend_cls (PyStr s) repo_type =
  (comparable <- parse_version_failsafe normalize_NFKD (PyStr s) ;;
   match comparable with
   | Some v => Ok v
   | None =>
       if list_contains s (highest_versions backend_cls repo_type)
       then packaging.parse
              (str_of_N (999999 - N.of_nat
                           (list_index s
                              (highest_versions backend_cls repo_type))))
       else packaging.parse (lit "0.01")
   end).
Proof. reflexivity. Qed.

Lemma comparable_version_synthetic normalize_NFKD backend_cls (x : str)
    repo_type :
  parse_version_failsafe normalize_NFKD (PyStr x) = Ok None ->
  list_contains x (highest_versions backend_cls repo_type) = true ->
  comparable_version normalize_NFKD backend_cls (PyStr x) repo_type
  = Ok (ceiling (list_index x (highest_versions backend_cls repo_type))).
Proof.
  intros Hp Hc. rewrite comparable_version_PyStr, Hp. unfold bind.
  rewrite Hc.
  apply parse_ceiling. now apply synthetic_index_le_2.
Qed.



(** X4: names of [highest_versions] that do not parse rank in the order
    of the list: the earlier name gets the greater key. *)
Theorem synthetic_names_rank_by_position
    normalize_NFKD backend_cls repo_type (x y : str) :
  parse_version_failsafe normalize_NFKD (PyStr x) = Ok None ->
  parse_version_failsafe normalize_NFKD (PyStr y) = Ok None ->
  list_contains x (highest_versions backend_cls repo_type) = true ->
  list_contains y (highest_versions backend_cls repo_type) = true ->
  (list_index x (highest_versions backend_cls repo_type)
   < list_index y (highest_versions backend_cls repo_type))%nat ->
  exists kx ky,
    comparable_version normalize_NFKD backend_cls (PyStr x) repo_type = Ok kx /\
    comparable_version normalize_NFKD backend_cls (PyStr y) repo_type = Ok ky /\
    packaging.lt ky kx = true.
Proof.
  intros Px Py Cx Cy Hlt.
  rewrite (comparable_version_synthetic _ _ _ _ Px Cx),
    (comparable_version_synthetic _ _ _ _ Py Cy).
  pose proof (synthetic_index_le_2 _ _ _ Cy) as Hy.
  do 2 eexists. repeat split.
  destruct (list_index x _) as [|[|[|i]]], (list_index y _) as [|[|[|j]]];
    try lia; reflexivity.
Qed.

Lemma synthetic_names_rank_by_position_witness :
  exists kx ky,
    comparable_version nfkd_on_ascii git_backend_cls (PyStr (lit "latest"))
      None = Ok kx /\
    comparable_version nfkd_on_ascii git_backend_cls (PyStr (lit "stable"))
      None = Ok ky /\
    packaging.lt ky kx = true.
Proof.
  apply (@synthetic_names_rank_by_position nfkd_on_ascii git_backend_cls None
           (lit "latest") (lit "stable")); try reflexivity.
  simpl. lia.
Defined.

Lemma version_lt_of_epoch_release (v w : packaging.Version) :
  cmp (packaging.epoch v, packaging.trimmed_release v)
      (packaging.epoch w, packaging.trimmed_release w) = Lt ->
  packaging.lt v w = true.
Proof.
  intros E. unfold packaging.lt, py_lt.
  assert (H : cmp (packaging._cmpkey v) (packaging._cmpkey w) = Lt).
  { unfold packaging._cmpkey. do 4 (apply cmp_pair_fst_lt; cbn [fst]).
    exact E. }
  now rewrite H.
Qed.

Lemma drop_zeros_snoc (l : list N) (a : N) :
  packaging.drop_zeros (l ++ [a]) = []
  \/ exists l', packaging.drop_zeros (l ++ [a]) = l' ++ [a].
Proof.
  induction l as [|x l IH]; simpl.
  - destruct a; [now left|]. right. now exists [].
  - destruct x; trivial. right. now exists (N.pos p :: l).
Qed.

(** Dropping trailing zeros leaves the first number in place, or
    nothing at all. *)
Lemma trimmed_release_head (w : packaging.Version) r0 rest :
  packaging.release w = r0 :: rest ->
  packaging.trimmed_release w = []
  \/ exists t, packaging.trimmed_release w = r0 :: t.
Proof.
  intros E. unfold packaging.trimmed_release. rewrite E. simpl rev.
  destruct (drop_zeros_snoc (rev rest) r0) as [->|[l' ->]]; [now left|].
  right. rewrite rev_app_distr. simpl. eauto.
Qed.

Lemma trimmed_release_head_nonzero (w : packaging.Version) r0 rest :
  packaging.release w = r0 :: rest -> r0 <> 0 ->
  exists t, packaging.trimmed_release w = r0 :: t.
Proof.
  intros E Hr. destruct (trimmed_release_head w E) as [H|H]; trivial.
  exfalso. unfold packaging.trimmed_release in H. rewrite E in H.
  simpl rev in H. apply (f_equal (@rev N)) in H.
  rewrite rev_involutive in H. simpl in H.
  assert (Hd : forall l, packaging.drop_zeros (l ++ [r0]) <> []).
  { induction l as [|x l IH]; simpl.
    - destruct r0; [congruence|discriminate].
    - destruct x; [exact IH|discriminate]. }
  exact (Hd _ H).
Qed.

(** X5: where the synthetic names sit among the real versions.  The
    key of a synthetic name is above every parsed version of epoch 0
    whose first release number is below 999997, and below every parsed
    version with an epoch or with a first release number above 999999:
    such a version is listed before [latest]. *)
Theorem synthetic_names_ceiling
    normalize_NFKD backend_cls repo_type (x : str)
    (v : pystring) (w : packaging.Version) r0 rest :
  parse_version_failsafe normalize_NFKD (PyStr x) = Ok None ->
  list_contains x (highest_versions backend_cls repo_type) = true ->
  parse_version_failsafe normalize_NFKD v = Ok (Some w) ->
  packaging.release w = r0 :: rest ->
  exists kx,
    comparable_version normalize_NFKD backend_cls (PyStr x) repo_type = Ok kx /\
    comparable_version normalize_NFKD backend_cls v repo_type = Ok w /\
    (packaging.epoch w = 0 -> r0 < 999997 -> packaging.lt w kx = true) /\
    (packaging.epoch w = 0 -> 999999 < r0 -> packaging.lt kx w = true) /\
    (0 < packaging.epoch w -> packaging.lt kx w = true).
Proof.
  intros Px Cx Pv Er.
  rewrite (comparable_version_synthetic _ _ _ _ Px Cx).
  pose proof (synthetic_index_le_2 _ _ _ Cx) as Hi.
  set (i := list_index x _) in *.
  assert (Hi' : i = 0%nat \/ i = 1%nat \/ i = 2%nat) by lia.
  eexists. split; [reflexivity|]. split.
  { unfold comparable_version. now rewrite Pv. }
  assert (Ht : packaging.trimmed_release (ceiling i)
               = [999999 - N.of_nat i])
    by (destruct Hi' as [->|[->| ->]]; reflexivity).
  repeat split.
  - intros He Hr. apply version_lt_of_epoch_release.
    rewrite Ht, He. cbn [ceiling packaging.epoch].
    unfold cmp, Ord_pair, pair_cmp. cbn [fst snd].
    change (cmp 0 0) with Eq. cbv iota.
    destruct (trimmed_release_head w Er) as [->|[t ->]]; [reflexivity|].
    unfold cmp, Ord_list. cbn [list_cmp].
    assert (Hc : cmp r0 (999999 - N.of_nat i) = Lt)
      by (apply N.compare_lt_iff; lia).
    now rewrite Hc.
  - intros He Hr. apply version_lt_of_epoch_release.
    rewrite Ht, He. cbn [ceiling packaging.epoch].
    unfold cmp, Ord_pair, pair_cmp. cbn [fst snd].
    change (cmp 0 0) with Eq. cbv iota.
    destruct (trimmed_release_head_nonzero w Er) as [t ->]; [lia|].
    unfold cmp, Ord_list. cbn [list_cmp].
    assert (Hc : cmp (999999 - N.of_nat i) r0 = Lt)
      by (apply N.compare_lt_iff; lia).
    now rewrite Hc.
  - intros He. apply version_lt_of_epoch_release.
    cbn [ceiling packaging.epoch].
    unfold cmp, Ord_pair, pair_cmp. cbn [fst snd].
    assert (Hc : cmp 0 (packaging.epoch w) = Lt)
      by (apply N.compare_lt_iff; lia).
    now rewrite Hc.
Qed.

Lemma synthetic_names_ceiling_witness :
  exists kx,
    comparable_version nfkd_on_ascii git_backend_cls (PyStr (lit "latest"))
      None = Ok kx /\
    packaging.lt kx (packaging.mkVersion 0 [1000000] None None None None)
    = true.
Proof.
  destruct (@synthetic_names_ceiling nfkd_on_ascii git_backend_cls None
              (lit "latest") (PyStr (lit "1000000"))
              (packaging.mkVersion 0 [1000000] None None None None)
              1000000 [] eq_refl eq_refl eq_refl eq_refl)
    as (kx & Hx & _ & _ & Hgt & _).
  exists kx. split; [exact Hx|]. apply Hgt; reflexivity.
Defined.

(* ================================================================= *)
(** ** Further properties of [sort_versions] and the stable version *)

Lemma same_key_not_lt k (c c' : packaging.Version) :
  same_key k c = true -> same_key k c' = true -> packaging.lt c' c = false.
Proof.
  unfold same_key. intros H H'.
  destruct (cmp (packaging._cmpkey c) k) eqn:E; try discriminate.
  destruct (cmp (packaging._cmpkey c') k) eqn:E'; try discriminate.
  apply cmp_eq in E, E'. unfold packaging.lt. rewrite E, E'.
  apply py_lt_irrefl.
Qed.

(** X6: [sort_versions] is stable.  The records whose versions compare
    equal, such as [1.0] and [1.0.0], come out in the order in which
    the input has them. *)
Theorem sort_versions_keeps_order_of_equal_versions
    normalize_NFKD l out (k : packaging.CmpKey) :
  sort_versions normalize_NFKD l = Ok out ->
  filter (fun p => same_key k (snd p)) out
  = filter (fun p => same_key k (snd p)) (parsed_pairs normalize_NFKD l).
Proof.
  intros H. rewrite (sort_versions_inv _ _ H).
  apply filter_sorted. intros x y _ _ Hx Hy.
  exact (same_key_not_lt _ _ _ Hx Hy).
Qed.

Lemma sort_versions_keeps_order_of_equal_versions_witness :
  let v := fun release => packaging.mkVersion 0 release None None None None in
  filter (fun p => same_key (packaging._cmpkey (v [1])) (snd p))
    [(record "2.0" TAG, v [2; 0]); (record "1.0" TAG, v [1; 0]);
     (record "1.0.0" BRANCH, v [1; 0; 0])]
  = [(record "1.0" TAG, v [1; 0]); (record "1.0.0" BRANCH, v [1; 0; 0])].
Proof.
  intros v.
  rewrite (@sort_versions_keeps_order_of_equal_versions nfkd_on_ascii
             [record "1.0" TAG; record "2.0" TAG; record "1.0.0" BRANCH]
             [(record "2.0" TAG, v [2; 0]); (record "1.0" TAG, v [1; 0]);
              (record "1.0.0" BRANCH, v [1; 0; 0])]
             (packaging._cmpkey (v [1])) eq_refl).
  reflexivity.
Defined.

Lemma candidates_In normalize_NFKD l v c :
  In (v, c) (filter not_prerelease
               (sorted snd packaging.lt true (parsed_pairs normalize_NFKD l)))
  <-> In v l /\ qualifies normalize_NFKD v c.
Proof.
  rewrite filter_In, sorted_In, parsed_pairs_In. unfold qualifies, not_prerelease.
  simpl. rewrite negb_true_iff. tauto.
Qed.

Lemma determine_stable_version_eq normalize_NFKD l :
  NFKD_keeps_ascii normalize_NFKD ->
  determine_stable_version normalize_NFKD l =
  let candidates :=
    filter not_prerelease
      (sorted snd packaging.lt true (parsed_pairs normalize_NFKD l)) in
  match candidates with
  | (version_obj, _) :: _ =>
      match first_tag candidates with
      | Some tag => Ok (Some tag)
      | None => Ok (Some version_obj)
      end
  | [] => Ok None
  end.
Proof.
  intros Hn. unfold determine_stable_version.
  now rewrite (sort_versions_ok _ Hn).
Qed.



Lemma VersionType_eqb_eq (a b : VersionType) :
  VersionType_eqb a b = true <-> a = b.
Proof. destruct a, b; simpl; split; congruence. Qed.

Lemma first_tag_split versions tag :
  first_tag versions = Some tag ->
  exists before c after,
    versions = before ++ (tag, c) :: after /\
    Forall (fun p => is_tag p = false) before /\
    is_tag (tag, c) = true.
Proof.
  induction versions as [|[v c] l IH]; simpl; [discriminate|].
  destruct (VersionType_eqb (models.type v) TAG) eqn:E.
  - intros [= ->]. exists [], c, l. repeat split; trivial.
  - intros H. destruct (IH H) as (before & c' & after & -> & Hb & Ht).
    exists ((v, c) :: before), c', after. repeat split; trivial.
    constructor; trivial.
Qed.

Lemma first_tag_no_tag versions :
  first_tag versions = None -> Forall (fun p => is_tag p = false) versions.
Proof.
  induction versions as [|[v c] l IH]; simpl; [constructor|].
  destruct (VersionType_eqb (models.type v) TAG) eqn:E; [discriminate|].
  intros H. constructor; auto.
Qed.

Lemma StronglySorted_after {A} (R : A -> A -> Prop) before x after :
  StronglySorted R (before ++ x :: after) -> Forall (R x) after.
Proof.
  induction before as [|a before IH]; simpl; intros H;
    inversion H; subst; auto.
Qed.

(** X8: the record [determine_stable_version] returns is one of the
    list, its name parses to a version that is no pre-release, and it
    is the best of its kind: if any such record is a tag the result is
    a tag and no such tag has a greater version; if none is a tag, no
    such record has a greater version. *)
Theorem determine_stable_version_is_best normalize_NFKD l v :
  NFKD_keeps_ascii normalize_NFKD ->
  determine_stable_version normalize_NFKD l = Ok (Some v) ->
  exists c,
    In v l /\ qualifies normalize_NFKD v c /\
    forall v' c',
      In v' l -> qualifies normalize_NFKD v' c' ->
      (models.type v' = TAG -> models.type v = TAG) /\
      (models.type v' = TAG \/ models.type v <> TAG ->
       packaging.lt c c' = false).
Proof.
  intros Hn. rewrite (determine_stable_version_eq _ Hn). cbv zeta.
  pose proof (StronglySorted_filter_keeps not_prerelease
                (sorted_descending_versions (parsed_pairs normalize_NFKD l)))
    as Hs.
  unfold descending in Hs.
  destruct (filter not_prerelease _) as [|[v0 c0] rest] eqn:E;
    [discriminate|].
  destruct (first_tag _) as [tag|] eqn:Ft; intros [= <-].
  - destruct (first_tag_split _ Ft) as (before & c & after & Ec & Hb & Ht).
    exists c.
    assert (Hin : In (tag, c) ((v0, c0) :: rest))
      by (rewrite Ec; apply in_or_app; right; now left).
    rewrite <- E in Hin. apply candidates_In in Hin.
    destruct Hin as [Hv Hq].
    split; [exact Hv|]. split; [exact Hq|]. intros v' c' Hv' Hq'. split.
    + intros _. now apply VersionType_eqb_eq.
    + intros [Ht'|Hnt].
      * assert (Hin' : In (v', c') ((v0, c0) :: rest))
          by (rewrite <- E; now apply candidates_In).
        rewrite Ec in Hin' , Hs. apply in_app_or in Hin'.
        destruct Hin' as [Hin'|[[= <- <-]|Hin']].
        -- rewrite Forall_forall in Hb. specialize (Hb _ Hin').
           unfold is_tag in Hb. simpl in Hb. rewrite Ht' in Hb. discriminate.
        -- apply version_lt_irrefl.
        -- apply StronglySorted_after in Hs. rewrite Forall_forall in Hs.
           exact (Hs _ Hin').
      * exfalso. apply Hnt. now apply VersionType_eqb_eq.
  - apply first_tag_no_tag in Ft. exists c0.
    assert (Hin : In (v0, c0) ((v0, c0) :: rest)) by now left.
    rewrite <- E in Hin. apply candidates_In in Hin.
    destruct Hin as [Hv Hq].
    split; [exact Hv|]. split; [exact Hq|]. intros v' c' Hv' Hq'. split.
    + intros Ht'. exfalso.
      assert (Hin' : In (v', c') ((v0, c0) :: rest))
        by (rewrite <- E; now apply candidates_In).
      rewrite Forall_forall in Ft. specialize (Ft _ Hin').
      unfold is_tag in Ft. simpl in Ft. rewrite Ht' in Ft. discriminate.
    + intros _.
      assert (Hin' : In (v', c') ((v0, c0) :: rest))
        by (rewrite <- E; now apply candidates_In).
      destruct Hin' as [[= <- <-]|Hin']; [apply version_lt_irrefl|].
      inversion Hs as [|? ? _ Hall]; subst.
      rewrite Forall_forall in Hall. exact (Hall _ Hin').
Qed.

Lemma determine_stable_version_is_best_witness :
  exists c,
    In (record "2.0.0" TAG) tags_and_branches /\
    qualifies nfkd_on_ascii (record "2.0.0" TAG) c.
Proof.
  destruct (@determine_stable_version_is_best nfkd_on_ascii tags_and_branches
              (record "2.0.0" TAG) nfkd_on_ascii_keeps_ascii eq_refl)
    as (c & Hin & Hq & _).
  exists c. split; [exact Hin|exact Hq].
Defined.

(* ================================================================= *)
(** ** Further properties of the generic engine *)


Section GenericErrors.
Variables (K : Type) (K_lt : K -> K -> bool).
Variable exception : exn.
Variable parse_version : str -> option str -> Res K.
Variable pin : bool.
Variable raw_pattern : option str.

Lemma classify_raise l e :
  classify exception parse_version pin raw_pattern l = Raise e ->
  exists v,
    In v l /\ is_pinned pin v = false /\
    parse_version (models.slug v) raw_pattern = Raise e /\
    issubclass e exception = false.
Proof.
  induction l as [|v l IH]; simpl classify; [discriminate|].
  assert (Hrest : forall r : Res (list (models.Version * str)
                                  * list (models.Version * K)
                                  * list models.Version),
             r = classify exception parse_version pin raw_pattern l ->
             forall k : _ -> Res (list (models.Version * str)
                                  * list (models.Version * K)
                                  * list models.Version),
             bind r k = Raise e ->
             (forall x, k x <> Raise e) ->
             exists v0, In v0 (v :: l) /\ is_pinned pin v0 = false /\
                        parse_version (models.slug v0) raw_pattern = Raise e /\
                        issubclass e exception = false).
  { intros r -> k Hk Hne.
    destruct (classify exception parse_version pin raw_pattern l) as [x|e'];
      simpl in Hk.
    - now destruct (Hne x).
    - injection Hk as ->. destruct (IH eq_refl) as (v0 & Hv0 & H).
      exists v0. split; [now right|exact H]. }
  destruct (is_pinned pin v) eqn:Ep.
  - intros H. eapply Hrest; [reflexivity|exact H|].
    intros [[i va] inv]. discriminate.
  - destruct (parse_version (models.slug v) raw_pattern) as [k|e0] eqn:P.
    + intros H. eapply Hrest; [reflexivity|exact H|].
      intros [[i va] inv]. discriminate.
    + destruct (issubclass e0 exception) eqn:Es.
      * intros H. eapply Hrest; [reflexivity|exact H|].
        intros [[i va] inv]. discriminate.
      * intros [= ->]. exists v. repeat split; trivial. now left.
Qed.
End GenericErrors.

(** X10: the engine returns exactly when every parse failure on a
    record that is not pinned is of the declared class.  When it
    raises, the exception is one that [parse_version] raised on the
    slug of such a record and that is not of the declared class. *)
Theorem sort_versions_generic_raises_only_undeclared
    (K : Type) (K_lt : K -> K -> bool) exception
    (parse_version : str -> option str -> Res K) pin raw_pattern l :
  ((exists out,
       sort_versions_generic K_lt exception parse_version pin raw_pattern l
       = Ok out)
   <-> failures_declared exception parse_version pin raw_pattern l) /\
  (forall e,
      sort_versions_generic K_lt exception parse_version pin raw_pattern l
      = Raise e ->
      exists v,
        In v l /\ is_pinned pin v = false /\
        parse_version (models.slug v) raw_pattern = Raise e /\
        issubclass e exception = false).
Proof.
  split; [apply generic_returns_iff_declared|].
  intros e. unfold sort_versions_generic.
  destruct (classify _ _ _ _ _) as [[[i va] inv]|e'] eqn:E; simpl;
    [discriminate|].
  intros [= ->]. destruct (classify_raise _ _ _ _ _ E) as (v & Hv & H).
  exists v. split; [|exact H]. revert Hv. apply sorted_In.
Qed.

Lemma sort_versions_generic_raises_only_undeclared_witness :
  exists v,
    In v four_names /\
    packaging.parse (models.slug v) = Raise InvalidVersion.
Proof.
  destruct (proj2 (@sort_versions_generic_raises_only_undeclared
                     _ packaging.lt PatternError
                     (fun slug _ => packaging.parse slug) true None
                     four_names) InvalidVersion eq_refl)
    as (v & Hv & _ & Hp & _).
  exists v. split; [exact Hv|exact Hp].
Defined.

(** X11: records that share a slug come out of the engine in the order
    in which the input has them. *)
Theorem sort_versions_generic_keeps_order_of_equal_slugs
    (K : Type) (K_lt : K -> K -> bool) exception
    (parse_version : str -> option str -> Res K) pin raw_pattern l out
    (slug : str) :
  (forall k, K_lt k k = false) ->
  sort_versions_generic K_lt exception parse_version pin raw_pattern l
  = Ok out ->
  filter (has_slug slug) out = filter (has_slug slug) l.
Proof.
  intros Hirr H.
  exact (filter_slug_generic _ _ _ _ _ Hirr slug _ H).
Qed.

Lemma sort_versions_generic_keeps_order_of_equal_slugs_witness :
  filter (has_slug (lit "1.0"))
    [record "2.0" TAG; record "1.0" TAG; record "1.0" BRANCH]
  = filter (has_slug (lit "1.0"))
      [record "1.0" TAG; record "2.0" TAG; record "1.0" BRANCH].
Proof.
  exact (@sort_versions_generic_keeps_order_of_equal_slugs
           _ packaging.lt InvalidVersion (fun slug _ => packaging.parse slug)
           true None
           [record "1.0" TAG; record "2.0" TAG; record "1.0" BRANCH]
           [record "2.0" TAG; record "1.0" TAG; record "1.0" BRANCH]
           (lit "1.0") version_lt_irrefl eq_refl).
Defined.

Lemma filter_has_slug_NoDup s l :
  NoDup (map models.slug l) -> (length (filter (has_slug s) l) <= 1)%nat.
Proof.
  induction l as [|v l IH]; simpl; [lia|].
  intros H. inversion H as [|? ? Hnot Hnd]; subst.
  destruct (has_slug s v) eqn:E; [|auto].
  apply has_slug_spec in E. simpl.
  rewrite filter_none; [simpl; lia|].
  intros x Hx. destruct (has_slug s x) eqn:Ex; trivial.
  apply has_slug_spec in Ex. exfalso. apply Hnot.
  rewrite E, <- Ex. now apply in_map.
Qed.

Lemma Permutation_short {A} (a b : list A) :
  Permutation a b -> (length a <= 1)%nat -> a = b.
Proof.
  intros H Hl. destruct a as [|x [|y a]]; simpl in Hl; try lia.
  - symmetry. now apply Permutation_nil.
  - symmetry. now apply Permutation_length_1_inv.
Qed.

Lemma alphabetically_sorted_of_permutation l l' :
  Permutation l l' -> NoDup (map models.slug l) ->
  alphabetically_sorted l = alphabetically_sorted l'.
Proof.
  intros Hp Hnd.
  refine (@sorted_unique _ _ models.slug has_slug slug_descending
            _ _ _ _ _ _ _).
  - intros k a. apply has_slug_spec.
  - intros a b Hab Hba. now apply py_lt_total.
  - apply alphabetically_sorted_descending.
  - apply alphabetically_sorted_descending.
  - intros s. unfold alphabetically_sorted. rewrite !filter_has_slug_sorted.
    apply Permutation_short; [now apply filter_perm|].
    now apply filter_has_slug_NoDup.
Qed.

(** X12: when no two records share a slug, the result of the engine
    does not depend on the order of its input. *)
Theorem sort_versions_generic_order_independent
    (K : Type) (K_lt : K -> K -> bool) exception
    (parse_version : str -> option str -> Res K) pin raw_pattern l l' :
  NoDup (map models.slug l) ->
  Permutation l l' ->
  sort_versions_generic K_lt exception parse_version pin raw_pattern l
  = sort_versions_generic K_lt exception parse_version pin raw_pattern l'.
Proof.
  intros Hnd Hp. unfold sort_versions_generic.
  now rewrite (alphabetically_sorted_of_permutation Hp Hnd).
Qed.

Lemma sort_versions_generic_order_independent_witness :
  sort_versions_python_packaging four_names true
  = sort_versions_python_packaging (rev four_names) true.
Proof.
  apply (@sort_versions_generic_order_independent
           _ packaging.lt InvalidVersion (fun slug _ => packaging.parse slug)
           true None four_names (rev four_names)).
  - repeat constructor; simpl; intuition discriminate.
  - apply Permutation_rev.
Defined.

Lemma StronglySorted_map_filter {A B} (R : B -> B -> Prop) (f : A -> B)
    (P : A -> bool) (l : list A) :
  StronglySorted R (map f l) -> StronglySorted R (map f (filter P l)).
Proof.
  induction l as [|a l IH]; simpl; intros H; [constructor|].
  inversion H as [|? ? Hl Ha]; subst.
  destruct (P a); simpl; auto. constructor; auto.
  rewrite Forall_forall in *. intros b [x [<- Hx]]%in_map_iff.
  apply Ha. apply in_map. now apply filter_In in Hx.
Qed.

(** X13: among the records that parse, those whose parsed values
    compare equal, such as [1.0.0] and [1.0], are listed in descending
    alphabetical order of slug. *)
Theorem sort_versions_generic_ties_alphabetical
    (K : Type) (K_lt : K -> K -> bool) exception
    (parse_version : str -> option str -> Res K) pin raw_pattern l out :
  (forall a b c, K_lt b a = false -> K_lt c b = false -> K_lt c a = false) ->
  sort_versions_generic K_lt exception parse_version pin raw_pattern l
  = Ok out ->
  exists valid : list (models.Version * K),
    out = (if pin
           then filter (has_slug LATEST) l ++ filter (has_slug STABLE) l
           else [])
          ++ map fst valid
          ++ filter (is_invalid exception parse_version pin raw_pattern)
               (alphabetically_sorted l) /\
    Forall (fun p => parse_version (models.slug (fst p)) raw_pattern
                     = Ok (snd p)) valid /\
    forall k,
      StronglySorted slug_descending
        (map fst (filter (fun p => equal_rank K_lt k (snd p)) valid)).
Proof.
  intros Htrans H.
  destruct (generic_inv _ _ _ _ _ _ H) as (valid & _ & E & Hv & Hp & _).
  exists (sorted snd K_lt true valid).
  rewrite pinned_block_sorted, pinned_block in E.
  split; [exact E|]. split.
  - eapply Permutation_Forall; [symmetry; apply sorted_perm|exact Hp].
  - intros k. rewrite filter_sorted.
    + apply StronglySorted_map_filter. rewrite Hv.
      apply StronglySorted_filter_keeps, alphabetically_sorted_descending.
    + intros x y _ _ Hx Hy. unfold equal_rank in Hx, Hy.
      apply andb_prop in Hx, Hy. destruct Hx as [Hx _], Hy as [_ Hy].
      apply negb_true_iff in Hx, Hy. exact (Htrans _ _ _ Hx Hy).
Qed.

Lemma sort_versions_generic_ties_alphabetical_witness :
  exists valid,
    [record "1.0.0" TAG; record "1.0" TAG]
    = [] ++ map fst valid ++ [] /\
    StronglySorted slug_descending
      (map fst (filter (fun p => equal_rank packaging.lt
                                   (packaging.mkVersion 0 [1] None None None
                                      None) (snd p)) valid)).
Proof.
  destruct (@sort_versions_generic_ties_alphabetical
              _ packaging.lt InvalidVersion
              (fun slug _ => packaging.parse slug) false None
              [record "1.0" TAG; record "1.0.0" TAG]
              [record "1.0.0" TAG; record "1.0" TAG]
              version_ge_trans eq_refl) as (valid & E & _ & Hs).
  exists valid. split; [exact E|apply Hs].
Defined.

Lemma classify_pinned_not_parsed {K} exception
    (parse_version parse_version' : str -> option str -> Res K)
    raw_pattern l :
  (forall slug, list_contains slug [STABLE; LATEST] = false ->
                parse_version slug raw_pattern
                = parse_version' slug raw_pattern) ->
  classify exception parse_version true raw_pattern l
  = classify exception parse_version' true raw_pattern l.
Proof.
  intros Hagree. induction l as [|v l IH]; cbn [classify]; trivial.
  rewrite IH. destruct (is_pinned true v) eqn:Ep; [reflexivity|].
  unfold is_pinned in Ep. simpl andb in Ep. now rewrite (Hagree _ Ep).
Qed.

(** X14: with pinning the engine never parses the slugs [latest] and
    [stable]: two parsers that agree on every other slug give the same
    result, whatever they do on these two. *)
Theorem sort_versions_generic_pinned_not_parsed
    (K : Type) (K_lt : K -> K -> bool) exception
    (parse_version parse_version' : str -> option str -> Res K)
    raw_pattern l :
  (forall slug, list_contains slug [STABLE; LATEST] = false ->
                parse_version slug raw_pattern
                = parse_version' slug raw_pattern) ->
  sort_versions_generic K_lt exception parse_version true raw_pattern l
  = sort_versions_generic K_lt exception parse_version' true raw_pattern l.
Proof.
  intros Hagree. unfold sort_versions_generic.
  now rewrite (classify_pinned_not_parsed exception _ _ _ _ Hagree).
Qed.

Lemma sort_versions_generic_pinned_not_parsed_witness :
  sort_versions_python_packaging four_names true
  = sort_versions_generic packaging.lt InvalidVersion
      (fun slug _ => if list_contains slug [STABLE; LATEST]
                     then Raise RecursionError
                     else packaging.parse slug)
      true None four_names.
Proof.
  apply (@sort_versions_generic_pinned_not_parsed
           _ packaging.lt InvalidVersion (fun slug _ => packaging.parse slug)
           (fun slug _ => if list_contains slug [STABLE; LATEST]
                          then Raise RecursionError
                          else packaging.parse slug)
           None four_names).
  intros slug H. now rewrite H.
Defined.

(* ================================================================= *)
(** ** The template filter [sort_version_aware] *)

Lemma sort_keys_total {A B} (f : A -> Res B) (g : A -> B) (l : list A) :
  (forall a, In a l -> f a = Ok (g a)) ->
  sort_keys f l = Ok (map (fun a => (a, g a)) l).
Proof.
  induction l as [|a l IH]; intros H; simpl; trivial.
  rewrite (H a) by now left. simpl.
  rewrite IH by (intros; apply H; now right). reflexivity.
Qed.

Lemma sorted_decorated {A K} (key : A -> K) (lt : K -> K -> bool) reverse
    (l : list A) :
  map fst (sorted snd lt reverse (map (fun a => (a, key a)) l))
  = sorted key lt reverse l.
Proof.
  unfold sorted. destruct reverse.
  - rewrite <- map_rev, isort_decorated, <- map_rev, map_map. simpl.
    apply map_id.
  - rewrite isort_decorated, map_map. simpl. apply map_id.
Qed.

Lemma comparable_version_key_of normalize_NFKD backend_cls repo_type v :
  NFKD_keeps_ascii normalize_NFKD ->
  comparable_version normalize_NFKD backend_cls
    (PyStr (models.verbose_name v)) repo_type
  = Ok (key_of normalize_NFKD backend_cls repo_type v).
Proof.
  intros Hn. unfold key_of.
  rewrite comparable_version_PyStr, (failsafe_str Hn). unfold bind.
  destruct (failsafe_value _) as [c|]; trivial.
  destruct (list_contains _ _) eqn:Hc; trivial.
  now rewrite (parse_ceiling (synthetic_index_le_2 _ _ _ Hc)).
Qed.

Lemma sort_version_aware_eq normalize_NFKD backend_cls project l :
  NFKD_keeps_ascii normalize_NFKD ->
  sort_version_aware normalize_NFKD backend_cls project l
  = Ok (sorted (key_of normalize_NFKD backend_cls (repo_type_of project l))
          packaging.lt true l).
Proof.
  intros Hn. unfold sort_version_aware. fold (repo_type_of project l).
  rewrite (sort_keys_total _
             (key_of normalize_NFKD backend_cls (repo_type_of project l)))
    by (intros; now apply comparable_version_key_of).
  unfold bind. now rewrite sorted_decorated.
Qed.



Lemma garbage_key normalize_NFKD backend_cls repo_type v :
  is_garbage normalize_NFKD backend_cls repo_type v = true ->
  key_of normalize_NFKD backend_cls repo_type v = sentinel.
Proof.
  unfold is_garbage, key_of. rewrite comparable_version_PyStr.
  destruct (parse_version_failsafe _ _) as [[c|]|e]; try discriminate.
  simpl. intros H. apply negb_true_iff in H. now rewrite H.
Qed.

(** X16: [sort_version_aware] is stable.  Records whose keys compare
    equal keep the order of the input; so the names that do not parse
    and are no synthetic names, which all get the sentinel, are listed
    in the order in which they came, not alphabetically. *)
Theorem sort_version_aware_keeps_order_of_equal_keys
    normalize_NFKD backend_cls project l out :
  NFKD_keeps_ascii normalize_NFKD ->
  sort_version_aware normalize_NFKD backend_cls project l = Ok out ->
  let repo_type := repo_type_of project l in
  (forall k,
      filter (fun v => same_key k (key_of normalize_NFKD backend_cls
                                     repo_type v)) out
      = filter (fun v => same_key k (key_of normalize_NFKD backend_cls
                                       repo_type v)) l) /\
  filter (is_garbage normalize_NFKD backend_cls repo_type) out
  = filter (is_garbage normalize_NFKD backend_cls repo_type) l.
Proof.
  intros Hn H repo_type. rewrite (sort_version_aware_eq _ _ _ Hn) in H.
  injection H as <-. fold repo_type. split.
  - intros k.
    refine (@filter_sorted _ _ (key_of normalize_NFKD backend_cls repo_type)
              packaging.lt _ true l _).
    intros x y _ _ Hx Hy. exact (same_key_not_lt _ _ _ Hx Hy).
  - refine (@filter_sorted _ _ (key_of normalize_NFKD backend_cls repo_type)
              packaging.lt _ true l _).
    intros x y _ _ Hx Hy.
    rewrite (garbage_key _ _ _ _ Hx), (garbage_key _ _ _ _ Hy).
    apply version_lt_irrefl.
Qed.

Lemma sort_version_aware_keeps_order_of_equal_keys_witness :
  filter (is_garbage nfkd_on_ascii git_backend_cls None)
    [record "1.0" TAG; record "zebra" BRANCH; record "apple" BRANCH]
  = filter (is_garbage nfkd_on_ascii git_backend_cls None)
      [record "zebra" BRANCH; record "1.0" TAG; record "apple" BRANCH].
Proof.
  exact (proj2 (@sort_version_aware_keeps_order_of_equal_keys
                  nfkd_on_ascii git_backend_cls
                  (fun _ => {| projects.repo_type := [] |})
                  [record "zebra" BRANCH; record "1.0" TAG;
                   record "apple" BRANCH]
                  [record "1.0" TAG; record "zebra" BRANCH;
                   record "apple" BRANCH]
                  nfkd_on_ascii_keeps_ascii eq_refl)).
Defined.

Lemma version_below_ceiling (w : packaging.Version) r0 rest (i : nat) :
  packaging.epoch w = 0 -> packaging.release w = r0 :: rest ->
  r0 < 999997 -> (i <= 2)%nat ->
  packaging.lt w (ceiling i) = true.
Proof.
  intros He Er Hr Hi. apply version_lt_of_epoch_release.
  assert (Ht : packaging.trimmed_release (ceiling i) = [999999 - N.of_nat i])
    by (destruct i as [|[|[|i]]]; try lia; reflexivity).
  rewrite Ht, He. cbn [ceiling packaging.epoch].
  unfold cmp, Ord_pair, pair_cmp. cbn [fst snd].
  change (cmp 0 0) with Eq. cbv iota.
  destruct (trimmed_release_head w Er) as [->|[t ->]]; [reflexivity|].
  unfold cmp, Ord_list. cbn [list_cmp].
  assert (Hc : cmp r0 (999999 - N.of_nat i) = Lt)
    by (apply N.compare_lt_iff; lia).
  now rewrite Hc.
Qed.

Lemma descending_before {A K} (key : A -> K) (lt : K -> K -> bool)
    l1 y l2 x l3 :
  descending key lt (l1 ++ y :: l2 ++ x :: l3) ->
  lt (key y) (key x) = false.
Proof.
  intros H. apply StronglySorted_after in H. rewrite Forall_forall in H.
  apply H. apply in_or_app. right. now left.
Qed.

(** X17: in the result of [sort_version_aware] no ordinary version
    comes before a synthetic name, and no name that fails to parse
    comes before a version above 0.1.  Ordinary means epoch 0 and a
    first release number below 999997; synthetic means a name of
    [highest_versions] that does not parse.  With [y] somewhere before
    [x] in the result: if [y] is ordinary and [x] does not parse, [x]
    is no synthetic name; if [y] is a name that gets the sentinel and
    [x] parses, [x] is not above 0.1. *)
Theorem sort_version_aware_synthetic_first
    normalize_NFKD backend_cls project l l1 y l2 x l3 :
  NFKD_keeps_ascii normalize_NFKD ->
  sort_version_aware normalize_NFKD backend_cls project l
  = Ok (l1 ++ y :: l2 ++ x :: l3) ->
  let repo_type := repo_type_of project l in
  let failsafe := fun v => parse_version_failsafe normalize_NFKD
                             (PyStr (models.verbose_name v)) in
  (forall w r0 rest,
      failsafe y = Ok (Some w) ->
      packaging.epoch w = 0 -> packaging.release w = r0 :: rest ->
      r0 < 999997 ->
      failsafe x = Ok None ->
      list_contains (models.verbose_name x)
        (highest_versions backend_cls repo_type) = false) /\
  (forall w,
      is_garbage normalize_NFKD backend_cls repo_type y = true ->
      failsafe x = Ok (Some w) ->
      cmp (packaging.epoch w, packaging.trimmed_release w) (0, [0; 1])
      <> Gt).
Proof.
  intros Hn H repo_type failsafe.
  rewrite (sort_version_aware_eq _ _ _ Hn) in H. fold repo_type in H.
  assert (Hd : descending (key_of normalize_NFKD backend_cls repo_type)
                 packaging.lt (l1 ++ y :: l2 ++ x :: l3)).
  { injection H as <-.
    refine (@sorted_is_descending _ _ (key_of normalize_NFKD backend_cls
                                         repo_type) packaging.lt _ _ l).
    - apply version_lt_asym.
    - apply version_ge_trans. }
  apply descending_before in Hd. split.
  - intros w r0 rest Py He Er Hr Px.
    destruct (list_contains _ _) eqn:Cx; trivial. exfalso.
    assert (Ky : key_of normalize_NFKD backend_cls repo_type y = w).
    { unfold key_of. rewrite comparable_version_PyStr.
      unfold failsafe in Py. now rewrite Py. }
    assert (Kx : key_of normalize_NFKD backend_cls repo_type x
                 = ceiling (list_index (models.verbose_name x)
                              (highest_versions backend_cls repo_type))).
    { unfold key_of. unfold failsafe in Px.
      now rewrite (comparable_version_synthetic _ _ _ _ Px Cx). }
    rewrite Ky, Kx in Hd.
    rewrite (version_below_ceiling w He Er Hr
               (synthetic_index_le_2 _ _ _ Cx)) in Hd.
    discriminate.
  - intros w Gy Px Hgt.
    assert (Kx : key_of normalize_NFKD backend_cls repo_type x = w).
    { unfold key_of. rewrite comparable_version_PyStr.
      unfold failsafe in Px. now rewrite Px. }
    rewrite (garbage_key _ _ _ _ Gy), Kx in Hd.
    apply cmp_gt_lt in Hgt. unfold packaging.lt, py_lt in Hd.
    now rewrite (sentinel_key_lt w Hgt) in Hd.
Qed.

Lemma sort_version_aware_synthetic_first_witness :
  list_contains (lit "oops") (highest_versions git_backend_cls None) = false.
Proof.
  refine (proj1 (@sort_version_aware_synthetic_first
                   nfkd_on_ascii git_backend_cls
                   (fun _ => {| projects.repo_type := [] |})
                   [record "oops" BRANCH; record "1.0" TAG;
                    record "latest" BRANCH]
                   [record "latest" BRANCH] (record "1.0" TAG) []
                   (record "oops" BRANCH) []
                   nfkd_on_ascii_keeps_ascii eq_refl)
                (packaging.mkVersion 0 [1; 0] None None None None) 1 [0]
                eq_refl eq_refl eq_refl eq_refl eq_refl).
Defined.

Lemma same_key_spec k (c : packaging.Version) :
  same_key k c = true <-> packaging._cmpkey c = k.
Proof.
  unfold same_key. rewrite <- cmp_eq.
  destruct (cmp (packaging._cmpkey c) k); split; congruence.
Qed.

Lemma andb_true_r_filter {A} k (key : A -> packaging.Version) (m : list A) :
  filter (fun a => same_key k (key a) && true) m
  = filter (fun a => same_key k (key a)) m.
Proof.
  apply filter_ext. intros a. apply andb_true_r.
Qed.

(** Filtering commutes with the descending stable sort by version. *)
Lemma filter_sorted_commute {A} (key : A -> packaging.Version)
    (P : A -> bool) (l : list A) :
  filter P (sorted key packaging.lt true l)
  = sorted key packaging.lt true (filter P l).
Proof.
  assert (Hd : forall m, descending key packaging.lt
                           (sorted key packaging.lt true m)).
  { intros m. apply sorted_is_descending.
    - apply version_lt_asym.
    - apply version_ge_trans. }
  assert (Hk : forall k (Q : A -> bool) m,
             filter (fun a => same_key k (key a) && Q a)
               (sorted key packaging.lt true m)
             = filter (fun a => same_key k (key a) && Q a) m).
  { intros k Q m. apply filter_sorted. intros x y _ _ Hx Hy.
    apply andb_prop in Hx, Hy. destruct Hx as [Hx _], Hy as [Hy _].
    exact (same_key_not_lt _ _ _ Hx Hy). }
  refine (@sorted_unique _ _ (fun a => packaging._cmpkey (key a))
            (fun k a => same_key k (key a))
            (fun a b => packaging.lt (key a) (key b) = false)
            _ _ _ _ _ _ _).
  - intros k a. apply same_key_spec.
  - intros a b Hab Hba. unfold packaging.lt in Hab, Hba.
    now apply py_lt_total.
  - apply StronglySorted_filter_keeps, Hd.
  - apply Hd.
  - intros k. rewrite filter_filter, Hk, <- filter_filter.
    symmetry.
    rewrite <- (andb_true_r_filter k key (sorted key packaging.lt true
                                           (filter P l))).
    rewrite (Hk k (fun _ => true)).
    now rewrite (andb_true_r_filter k key).
Qed.

Lemma key_of_parsed normalize_NFKD backend_cls repo_type v c :
  parse_version_failsafe normalize_NFKD (PyStr (models.verbose_name v))
  = Ok (Some c) ->
  key_of normalize_NFKD backend_cls repo_type v = c.
Proof.
  intros H. unfold key_of. rewrite comparable_version_PyStr. now rewrite H.
Qed.

Lemma parsed_pairs_decorated normalize_NFKD backend_cls repo_type l :
  parsed_pairs normalize_NFKD l
  = map (fun v => (v, key_of normalize_NFKD backend_cls repo_type v))
      (filter (parses normalize_NFKD) l).
Proof.
  induction l as [|v l IH]; trivial.
  change (parsed_pairs normalize_NFKD (v :: l))
    with (match parse_version_failsafe normalize_NFKD
                  (PyStr (models.verbose_name v)) with
          | Ok (Some c) => [(v, c)]
          | _ => []
          end ++ parsed_pairs normalize_NFKD l).
  simpl filter. unfold parses at 1. rewrite IH.
  destruct (parse_version_failsafe _ _) as [[c|]|e] eqn:E; trivial.
  simpl. now rewrite (key_of_parsed _ backend_cls repo_type _ E).
Qed.

(** X18: the filter and [sort_versions] agree on the names that parse.
    Leaving out of the result of [sort_version_aware] the records whose
    names do not parse gives the records of [sort_versions], in the
    same order. *)
Theorem sort_version_aware_agrees_with_sort_versions
    normalize_NFKD backend_cls project l out pairs :
  NFKD_keeps_ascii normalize_NFKD ->
  sort_version_aware normalize_NFKD backend_cls project l = Ok out ->
  sort_versions normalize_NFKD l = Ok pairs ->
  filter (parses normalize_NFKD) out = map fst pairs.
Proof.
  intros Hn Ho Hp. rewrite (sort_version_aware_eq _ _ _ Hn) in Ho.
  assert (Eo : out = sorted (key_of normalize_NFKD backend_cls
                               (repo_type_of project l)) packaging.lt true l)
    by congruence.
  rewrite (sort_versions_inv _ _ Hp), Eo.
  rewrite (parsed_pairs_decorated normalize_NFKD backend_cls
             (repo_type_of project l) l).
  rewrite sorted_decorated. apply filter_sorted_commute.
Qed.

Lemma sort_version_aware_agrees_with_sort_versions_witness :
  filter (parses nfkd_on_ascii)
    [record "latest" BRANCH; record "2.0.0" TAG; record "1.5.0" TAG;
     record "not-a-version" BRANCH]
  = [record "2.0.0" TAG; record "1.5.0" TAG].
Proof.
  exact (@sort_version_aware_agrees_with_sort_versions
           nfkd_on_ascii git_backend_cls
           (fun _ => {| projects.repo_type := [] |}) four_names
           [record "latest" BRANCH; record "2.0.0" TAG; record "1.5.0" TAG;
            record "not-a-version" BRANCH]
           [(record "2.0.0" TAG,
             packaging.mkVersion 0 [2; 0; 0] None None None None);
            (record "1.5.0" TAG,
             packaging.mkVersion 0 [1; 5; 0] None None None None)]
           nfkd_on_ascii_keeps_ascii eq_refl eq_refl).
Defined.

(* ================================================================= *)
(** ** The pattern strategies *)

(** X19: [sort_versions_custom_pattern], and so [sort_versions_calver],
    which is the same with the pattern [YYYY.0M.0D], hands the pattern
    to [parse_version_info] and takes [PatternError] for the sign of an
    invalid slug.  If that is all the parser raises on the records that
    are not pinned, the result is a permutation of the input; any other
    exception of the parser comes out of the function as it is. *)
Theorem sort_versions_custom_pattern_returns
    (VersionInfo : Type) (VersionInfo_lt : VersionInfo -> VersionInfo -> bool)
    (parse_version_info : str -> option str -> Res VersionInfo)
    l (raw_pattern : str) pin :
  (failures_declared PatternError parse_version_info pin (Some raw_pattern) l ->
   exists out,
     sort_versions_custom_pattern VersionInfo_lt parse_version_info l
       raw_pattern pin = Ok out /\
     Permutation l out) /\
  (forall e,
      sort_versions_custom_pattern VersionInfo_lt parse_version_info l
        raw_pattern pin = Raise e ->
      issubclass e PatternError = false /\
      exists v,
        In v l /\ is_pinned pin v = false /\
        parse_version_info (models.slug v) (Some raw_pattern) = Raise e) /\
  sort_versions_calver VersionInfo_lt parse_version_info l pin
  = sort_versions_custom_pattern VersionInfo_lt parse_version_info l
      (lit "YYYY.0M.0D") pin.
Proof.
  split; [|split; [|reflexivity]].
  - intros Hd. unfold sort_versions_custom_pattern.
    destruct (@generic_ok _ VersionInfo_lt PatternError
                (fun slug raw => parse_version_info slug raw) pin
                (Some raw_pattern) l Hd)
      as [out H].
    exists out. split; [exact H|]. exact (generic_perm _ _ _ _ _ _ H).
  - intros e. unfold sort_versions_custom_pattern, sort_versions_generic.
    destruct (classify _ _ _ _ _) as [[[i va] inv]|e'] eqn:E; simpl;
      [discriminate|].
    intros [= ->].
    destruct (classify_raise _ _ _ _ _ E) as (v & Hv & Hp & Hr & Hs).
    split; [exact Hs|]. exists v. repeat split; trivial.
    revert Hv. apply sorted_In.
Qed.

Lemma sort_versions_custom_pattern_returns_witness :
  exists out,
    sort_versions_calver N.ltb (fun _ _ => Raise PatternError) four_names true
    = Ok out /\
    Permutation four_names out.
Proof.
  destruct (@sort_versions_custom_pattern_returns N N.ltb
              (fun _ _ => Raise PatternError) four_names (lit "YYYY.0M.0D")
              true) as (H & _ & _).
  apply H. intros v e _ _ [= <-]. reflexivity.
Defined.
